(** * gateway-worker: certificate lifecycle manager and job queue

    A shallow embedding of the Go packages [certificate] (the lifecycle
    manager) and [queue] (the channel-backed job queue) of gateway-worker,
    with the properties of their behaviour that the design document states.

    Conventions of the embedding.
    - Go's [int] and [time.Duration] are 64-bit integers, kept as [Z]; the
      code under study only compares them and builds constants, so no
      wrap-around arises except in [time.Time.Sub], which saturates and is
      written out.
    - [time.Time] is an instant on a nanosecond time line, kept as [Z].
    - Go's [error] interface value is kept by its message; [nil] is [None].
    - A Go result pair [(T, error)] follows the convention that exactly one
      side is set, and is kept as a sum ([Ok] / [Err]); the certificate
      pointers that collaborators return, alone or in a slice, are not nil.
    - The collaborators of the manager are Go interfaces without an
      implementation in the repository.  A method of the manager is a tree of
      interface calls ([Prog]); running it against any implementation
      ([Manager W], a world type [W]) yields the result, the final world and
      the sequence of calls made.
    - The [context.Context] argument is handed unchanged to every
      collaborator; it lives in the world of the implementation. *)

From Stdlib Require Import ZArith Lia.
From stdpp Require Import base option strings pretty list gmap.

Local Open Scope string_scope.
Local Open Scope list_scope.
Local Open Scope Z_scope.

(** ** Go's [time] package, as far as the code uses it *)

Module time.

Definition Duration := Z.
Definition Time := Z.

Definition Nanosecond : Duration := 1.
Definition Microsecond : Duration := 1000 * Nanosecond.
Definition Millisecond : Duration := 1000 * Microsecond.
Definition Second : Duration := 1000 * Millisecond.
Definition Minute : Duration := 60 * Second.
Definition Hour : Duration := 60 * Minute.

Definition minDuration : Duration := - 2 ^ 63.
Definition maxDuration : Duration := 2 ^ 63 - 1.

(** [t.Add(d)] *)
Definition Add (t : Time) (d : Duration) : Time := t + d.

(** [t.Sub(u)]: the difference, saturated to the range of [Duration]. *)
Definition Sub (t u : Time) : Duration :=
  if t - u <? minDuration then minDuration
  else if maxDuration <? t - u then maxDuration
  else t - u.

(** [time.Until(t)] is [t.Sub(time.Now())]; the clock reading is passed. *)
Definition Until (t : Time) (now : Time) : Duration := Sub t now.

End time.

Definition error := string.

Inductive result (A : Type) : Type :=
| Ok (a : A)
| Err (err : error).
Arguments Ok {A} a.
Arguments Err {A} err.

(** ** Package [certificate] *)

Module certificate.

Definition CertificateType := string.

Definition CertificateTypeProduction : CertificateType := "production".
Definition CertificateTypeTemporary : CertificateType := "temporary".
Definition CertificateTypeStaging : CertificateType := "staging".

Record Certificate : Type := {
  Domain : string;
  CertData : list Byte.byte;
  PrivateKey : list Byte.byte;
  Expiry : time.Time;
  Type' : CertificateType;
  Created : time.Time;
  LastUpdated : time.Time
}.

Record TemporaryCertificate : Type := {
  Certificate' : Certificate;
  Reason : string;
  ValidityDays : Z;
  IsTemporary : bool
}.

Record CertificateStatus : Type := {
  status_Domain : string;
  status_Type : CertificateType;
  status_Expiry : time.Time;
  TimeUntilExpiry : time.Duration;
  Status : string
}.

(** *** Calls on the collaborators

    One constructor per method of the interfaces [ACMEClient], [Storage],
    [Distributor] and [Validator], named after the field of [Manager] that
    holds the collaborator ([m.acmeClient.RenewCertificate] is
    [acmeClient_RenewCertificate]), the clock ([time.Now]), and what the
    monitor loop waits on ([select], [ctx.Err]). *)

Inductive SelectCase : Type :=
| CtxDone      (* case <-ctx.Done() *)
| TickerC.     (* case <-ticker.C *)

Inductive Call : Type :=
| acmeClient_RenewCertificate (domain : string)
| acmeClient_ValidateCertificate (cert : Certificate)
| storage_Store (cert : Certificate)
| storage_Retrieve (domain : string)
| storage_List
| storage_Delete (domain : string)
| distributor_Deploy (cert : Certificate) (instances : list string)
| distributor_DeployTemporary (cert : TemporaryCertificate)
| validator_ValidateCertificate (cert : Certificate)
| validator_CheckExpiration (cert : Certificate)
| time_Now
| select_Done_or_Tick
| ctx_Err.

Definition Resp (c : Call) : Type :=
  match c with
  | acmeClient_RenewCertificate _ => result Certificate
  | acmeClient_ValidateCertificate _ => option error
  | storage_Store _ => option error
  | storage_Retrieve _ => result Certificate
  | storage_List => result (list Certificate)
  | storage_Delete _ => option error
  | distributor_Deploy _ _ => option error
  | distributor_DeployTemporary _ => option error
  | validator_ValidateCertificate _ => option error
  | validator_CheckExpiration _ => result time.Duration
  | time_Now => time.Time
  | select_Done_or_Tick => SelectCase
  | ctx_Err => option error
  end.

(** A method body: it returns, or makes a call and goes on with the answer. *)
Inductive Prog (A : Type) : Type :=
| Ret (a : A)
| Vis (c : Call) (k : Resp c -> Prog A).
Arguments Ret {A} a.
Arguments Vis {A} c k.

Fixpoint bind {A B : Type} (p : Prog A) (f : A -> Prog B) : Prog B :=
  match p with
  | Ret a => f a
  | Vis c k => Vis c (fun r => bind (k r) f)
  end.

#[export] Instance Prog_ret : MRet Prog := @Ret.
#[export] Instance Prog_bind : MBind Prog := fun A B f p => bind p f.

Definition call (c : Call) : Prog (Resp c) := Vis c Ret.

(** *** The manager's methods *)

(** [determineStatus]: the receiver is not used. *)
Definition determineStatus (timeUntilExpiry : time.Duration) : string :=
  if timeUntilExpiry <=? 0 then "expired"
  else if timeUntilExpiry <=? 7 * 24 * time.Hour then "expiring"
  else if timeUntilExpiry <=? 30 * 24 * time.Hour then "renewal_due"
  else "valid".

Definition GetCertificateStatus (domain : string) : Prog (result CertificateStatus) :=
  r ← call (storage_Retrieve domain);
  match r with
  | Err err => mret (Err err)
  | Ok cert =>
      r' ← call (validator_CheckExpiration cert);
      match r' with
      | Err err => mret (Err err)
      | Ok timeUntilExpiry =>
          mret (Ok {| status_Domain := domain;
                      status_Type := Type' cert;
                      status_Expiry := Expiry cert;
                      TimeUntilExpiry := timeUntilExpiry;
                      Status := determineStatus timeUntilExpiry |})
      end
  end.

Definition renewCertificate (domain : string) : Prog (option error) :=
  r ← call (acmeClient_RenewCertificate domain);
  match r with
  | Err err => mret (Some err)
  | Ok newCert =>
      verr ← call (validator_ValidateCertificate newCert);
      match verr with
      | Some err => mret (Some err)
      | None =>
          serr ← call (storage_Store newCert);
          match serr with
          | Some err => mret (Some err)
          | None =>
              let instances : list string := [] in
              call (distributor_Deploy newCert instances)
          end
      end
  end.

(** [generateSelfSignedCertificate]: a placeholder that leaves the
    certificate as it is and returns [nil]. *)
Definition generateSelfSignedCertificate (tempCert : TemporaryCertificate)
  : TemporaryCertificate * option error :=
  (tempCert, None).

Definition deployTemporaryCertificate (domain reason : string) : Prog (option error) :=
  created ← call time_Now;
  lastUpdated ← call time_Now;
  now ← call time_Now;
  let tempCert :=
    {| Certificate' :=
         {| Domain := domain;
            CertData := [];
            PrivateKey := [];
            Expiry := time.Add now (14 * 24 * time.Hour);
            Type' := CertificateTypeTemporary;
            Created := created;
            LastUpdated := lastUpdated |};
       Reason := reason;
       ValidityDays := 14;
       IsTemporary := true |} in
  match generateSelfSignedCertificate tempCert with
  | (_, Some err) => mret (Some err)
  | (tempCert, None) => call (distributor_DeployTemporary tempCert)
  end.

(** The body of the [for _, cert := range certificates] loop. *)
Definition sweepCertificate (cert : Certificate) : Prog unit :=
  now ← call time_Now;
  if time.Until (Expiry cert) now <=? 30 * 24 * time.Hour then
    err ← renewCertificate (Domain cert);
    match err with
    | Some _ =>
        _ ← deployTemporaryCertificate (Domain cert) "renewal_failed";
        mret tt
    | None => mret tt
    end
  else mret tt.

Fixpoint rangeCertificates (certificates : list Certificate) : Prog unit :=
  match certificates with
  | [] => mret tt
  | cert :: rest => _ ← sweepCertificate cert; rangeCertificates rest
  end.

Definition checkAndRenewCertificates : Prog (option error) :=
  r ← call storage_List;
  match r with
  | Err err => mret (Some err)
  | Ok certificates => _ ← rangeCertificates certificates; mret None
  end.

(** [MonitorCertificates]: the [for { select { ... } }] loop, unrolled
    [rounds] times.  [None] means the loop is still running after that
    many rounds; [Some e] that it has returned [e].  The ticker, of 24
    hours, is what makes the second case of the [select] fire. *)
Fixpoint MonitorCertificates (rounds : nat) : Prog (option (option error)) :=
  match rounds with
  | O => mret None
  | S rounds' =>
      s ← call select_Done_or_Tick;
      match s with
      | CtxDone => e ← call ctx_Err; mret (Some e)
      | TickerC =>
          err ← checkAndRenewCertificates;
          match err with
          | Some _ => MonitorCertificates rounds'   (* continue *)
          | None => MonitorCertificates rounds'
          end
      end
  end.

(** *** The collaborators

    The four interfaces of the package.  A method takes the world of the
    implementation and returns its answer with the world it leaves. *)

Module ACMEClient.
Record t (W : Type) : Type := {
  RenewCertificate : string -> W -> result Certificate * W;
  ValidateCertificate : Certificate -> W -> option error * W
}.
Arguments RenewCertificate {W} _ _ _.
Arguments ValidateCertificate {W} _ _ _.
End ACMEClient.

Module Storage.
Record t (W : Type) : Type := {
  Store : Certificate -> W -> option error * W;
  Retrieve : string -> W -> result Certificate * W;
  List : W -> result (list Certificate) * W;
  Delete : string -> W -> option error * W
}.
Arguments Store {W} _ _ _.
Arguments Retrieve {W} _ _ _.
Arguments List {W} _ _.
Arguments Delete {W} _ _ _.
End Storage.

Module Distributor.
Record t (W : Type) : Type := {
  Deploy : Certificate -> list string -> W -> option error * W;
  DeployTemporary : TemporaryCertificate -> W -> option error * W
}.
Arguments Deploy {W} _ _ _ _.
Arguments DeployTemporary {W} _ _ _.
End Distributor.

Module Validator.
Record t (W : Type) : Type := {
  ValidateCertificate : Certificate -> W -> option error * W;
  CheckExpiration : Certificate -> W -> result time.Duration * W
}.
Arguments ValidateCertificate {W} _ _ _.
Arguments CheckExpiration {W} _ _ _.
End Validator.

(** What the Go runtime supplies: the clock, which case of the monitor's
    [select] fires, and [ctx.Err()]. *)
Module Runtime.
Record t (W : Type) : Type := {
  Now : W -> time.Time * W;
  Select : W -> SelectCase * W;
  Err : W -> option error * W
}.
Arguments Now {W} _ _.
Arguments Select {W} _ _.
Arguments Err {W} _ _.
End Runtime.

Record Manager (W : Type) : Type := {
  acmeClient : ACMEClient.t W;
  storage : Storage.t W;
  distributor : Distributor.t W;
  validator : Validator.t W
}.
Arguments acmeClient {W} _.
Arguments storage {W} _.
Arguments distributor {W} _.
Arguments validator {W} _.

(** [New] *)
Definition New {W : Type} (acmeClient : ACMEClient.t W) (storage : Storage.t W)
    (distributor : Distributor.t W) (validator : Validator.t W) : Manager W :=
  {| acmeClient := acmeClient;
     storage := storage;
     distributor := distributor;
     validator := validator |}.

(** *** Running a method on a manager *)

Record Outcome (A W : Type) : Type := {
  returned : A;
  world : W;
  calls : list Call
}.
Arguments returned {A W} _.
Arguments world {A W} _.
Arguments calls {A W} _.

Section Run.
Context {W : Type} (rt : Runtime.t W) (m : Manager W).

(** Dynamic dispatch of a call to the collaborator that answers it. *)
Definition dispatch (c : Call) : W -> Resp c * W :=
  match c with
  | acmeClient_RenewCertificate domain =>
      ACMEClient.RenewCertificate (acmeClient m) domain
  | acmeClient_ValidateCertificate cert =>
      ACMEClient.ValidateCertificate (acmeClient m) cert
  | storage_Store cert => Storage.Store (storage m) cert
  | storage_Retrieve domain => Storage.Retrieve (storage m) domain
  | storage_List => Storage.List (storage m)
  | storage_Delete domain => Storage.Delete (storage m) domain
  | distributor_Deploy cert instances =>
      Distributor.Deploy (distributor m) cert instances
  | distributor_DeployTemporary cert =>
      Distributor.DeployTemporary (distributor m) cert
  | validator_ValidateCertificate cert =>
      Validator.ValidateCertificate (validator m) cert
  | validator_CheckExpiration cert =>
      Validator.CheckExpiration (validator m) cert
  | time_Now => Runtime.Now rt
  | select_Done_or_Tick => Runtime.Select rt
  | ctx_Err => Runtime.Err rt
  end.

Fixpoint run {A : Type} (p : Prog A) (w : W) : Outcome A W :=
  match p with
  | Ret a => {| returned := a; world := w; calls := [] |}
  | Vis c k =>
      let answer := dispatch c w in
      let o := run (k answer.1) answer.2 in
      {| returned := returned o; world := world o; calls := c :: calls o |}
  end.

End Run.

(** *** Goroutines sharing one manager

    A call on a collaborator takes time: a goroutine first enters the call
    and later gets its answer.  A pool is run by a schedule that names the
    goroutine to move next. *)

Inductive Goroutine (A : Type) : Type :=
| Running (p : Prog A)
| Blocked (c : Call) (k : Resp c -> Prog A).
Arguments Running {A} p.
Arguments Blocked {A} c k.

Section Pool.
Context {W : Type} (rt : Runtime.t W) (m : Manager W) {A : Type}.

Definition go_step (g : Goroutine A) (w : W) : Goroutine A * W :=
  match g with
  | Running (Ret _) => (g, w)
  | Running (Vis c k) => (Blocked c k, w)
  | Blocked c k => let '(r, w') := dispatch rt m c w in (Running (k r), w')
  end.

Definition pool_step (gs : list (Goroutine A)) (w : W) (i : nat)
  : list (Goroutine A) * W :=
  match gs !! i with
  | None => (gs, w)
  | Some g => let '(g', w') := go_step g w in (<[i := g']> gs, w')
  end.

Fixpoint pool_run (schedule : list nat) (gs : list (Goroutine A)) (w : W)
  : list (Goroutine A) * W :=
  match schedule with
  | [] => (gs, w)
  | i :: rest => let '(gs', w') := pool_step gs w i in pool_run rest gs' w'
  end.

End Pool.

(** A renewal for [domain] is in flight in a goroutine while it is inside
    [m.acmeClient.RenewCertificate(ctx, domain)]. *)
Definition renewing {A : Type} (domain : string) (g : Goroutine A) : bool :=
  match g with
  | Blocked (acmeClient_RenewCertificate d) _ => bool_decide (d = domain)
  | _ => false
  end.

Definition in_flight {A : Type} (domain : string) (gs : list (Goroutine A)) : nat :=
  length (filter (fun g => renewing domain g = true) gs).

Section Temporary.
Context {W : Type} (rt : Runtime.t W).

(** The temporary certificate built in world [w]: three readings of the
    clock, in the order of the fields of the literal. *)
Definition temporary_in (w : W) (domain reason : string) : TemporaryCertificate :=
  let created := Runtime.Now rt w in
  let lastUpdated := Runtime.Now rt created.2 in
  let now := Runtime.Now rt lastUpdated.2 in
  {| Certificate' :=
       {| Domain := domain;
          CertData := [];
          PrivateKey := [];
          Expiry := time.Add now.1 (14 * 24 * time.Hour);
          Type' := CertificateTypeTemporary;
          Created := created.1;
          LastUpdated := lastUpdated.1 |};
     Reason := reason;
     ValidityDays := 14;
     IsTemporary := true |}.

End Temporary.

(** The temporary certificate a call deploys, if it is [DeployTemporary]. *)
Definition deployed_temporary (c : Call) : option TemporaryCertificate :=
  match c with
  | distributor_DeployTemporary tc => Some tc
  | _ => None
  end.

(** The calls that reach the renewal authority or the distributor. *)
Definition remote_call (c : Call) : bool :=
  match c with
  | acmeClient_RenewCertificate _
  | acmeClient_ValidateCertificate _
  | distributor_Deploy _ _
  | distributor_DeployTemporary _ => true
  | _ => false
  end.

(** The calls that write to the certificate store. *)
Definition writes_store (c : Call) : bool :=
  match c with
  | storage_Store _ | storage_Delete _ => true
  | _ => false
  end.

Definition is_renewal (c : Call) : option string :=
  match c with
  | acmeClient_RenewCertificate domain => Some domain
  | _ => None
  end.

(** The calls that mark a round of the monitor and the start of a sweep. *)
Definition is_select (c : Call) : bool :=
  match c with
  | select_Done_or_Tick => true
  | _ => false
  end.

Definition is_list (c : Call) : bool :=
  match c with
  | storage_List => true
  | _ => false
  end.

(** The number of rounds of the monitor and of sweeps in a run. *)
Definition selects (cs : list Call) : nat :=
  length (filter (fun c => is_select c = true) cs).

Definition sweeps (cs : list Call) : nat :=
  length (filter (fun c => is_list c = true) cs).

(** The calls a sweep makes for its certificates: anything but the listing
    of the store and the waits of the monitor. *)
Definition in_sweep_body (c : Call) : Prop :=
  is_list c = false /\ is_select c = false /\ c <> ctx_Err.

(** No certificate of the list is due when the sweep reads the clock for
    it: the clock readings are those the loop makes, one per certificate. *)
Fixpoint none_due {W : Type} (rt : Runtime.t W) (certificates : list Certificate)
    (w : W) : bool :=
  match certificates with
  | [] => true
  | cert :: rest =>
      negb (time.Until (Expiry cert) (Runtime.Now rt w).1 <=? 30 * 24 * time.Hour)
      && none_due rt rest (Runtime.Now rt w).2
  end.

End certificate.

(** ** Package [queue] *)

Module queue.

Definition JobType := string.

Definition JobTypeCertificateRenewal : JobType := "certificate_renewal".
Definition JobTypeCertificateValidation : JobType := "certificate_validation".
Definition JobTypeConfigUpdate : JobType := "config_update".
Definition JobTypeLogProcessing : JobType := "log_processing".
Definition JobTypeAnalytics : JobType := "analytics".
Definition JobTypeDatabaseCleanup : JobType := "database_cleanup".
Definition JobTypeIntegration : JobType := "integration".

(** [Payload] is a [map[string]interface{}]; its values are kept as text. *)
Record Job : Type := {
  ID : string;
  Type' : JobType;
  Payload : gmap string string;
  Priority : Z;
  Retry : Z;
  MaxRetry : Z;
  Created : time.Time
}.

(** *** A buffered Go channel of jobs

    [make(chan Job, n)]: a first-in first-out buffer of at most [n]
    elements.  A send that finds the buffer full, and a receive that finds
    it empty, would block: [None]. *)
Record chan : Type := {
  buf : list Job;
  cap : nat
}.

Definition make (n : nat) : chan := {| buf := []; cap := n |}.

Definition send (c : chan) (job : Job) : option chan :=
  if decide (length (buf c) < cap c)%nat
  then Some {| buf := buf c ++ [job]; cap := cap c |}
  else None.

Definition recv (c : chan) : option (Job * chan) :=
  match buf c with
  | [] => None
  | job :: rest => Some (job, {| buf := rest; cap := cap c |})
  end.

(** [Service]; the wait group only counts the running workers. *)
Record Service : Type := {
  jobs : chan;
  workers : Z
}.

Definition New : Service :=
  {| jobs := make 1000;
     workers := 5 |}.

Section WithErrors.

(** [ErrQueueFull] is declared outside the files at hand; it is some
    error value. *)
Variable ErrQueueFull : error.

(** [AddJob]: [select { case s.jobs <- job: ...; default: ... }]. *)
Definition AddJob (s : Service) (job : Job) : Service * option error :=
  match send (jobs s) job with
  | Some c => ({| jobs := c; workers := workers s |}, None)
  | None => (s, Some ErrQueueFull)
  end.

End WithErrors.

(** *** Handlers: placeholders that write one log line

    A method returns the service as it leaves it and the lines it logs. *)

Definition processCertificateRenewal (s : Service) (job : Job) : Service * list string :=
  (s, ["Processing certificate renewal job " +:+ ID job]).

Definition processCertificateValidation (s : Service) (job : Job) : Service * list string :=
  (s, ["Processing certificate validation job " +:+ ID job]).

Definition processConfigUpdate (s : Service) (job : Job) : Service * list string :=
  (s, ["Processing config update job " +:+ ID job]).

Definition processLogProcessing (s : Service) (job : Job) : Service * list string :=
  (s, ["Processing log processing job " +:+ ID job]).

Definition processAnalytics (s : Service) (job : Job) : Service * list string :=
  (s, ["Processing analytics job " +:+ ID job]).

Definition processDatabaseCleanup (s : Service) (job : Job) : Service * list string :=
  (s, ["Processing database cleanup job " +:+ ID job]).

Definition processIntegration (s : Service) (job : Job) : Service * list string :=
  (s, ["Processing integration job " +:+ ID job]).

Definition processJob (s : Service) (job : Job) : Service * list string :=
  let line := "Processing job " +:+ ID job +:+ " of type " +:+ Type' job in
  let '(s', out) :=
    if decide (Type' job = JobTypeCertificateRenewal) then processCertificateRenewal s job
    else if decide (Type' job = JobTypeCertificateValidation) then processCertificateValidation s job
    else if decide (Type' job = JobTypeConfigUpdate) then processConfigUpdate s job
    else if decide (Type' job = JobTypeLogProcessing) then processLogProcessing s job
    else if decide (Type' job = JobTypeAnalytics) then processAnalytics s job
    else if decide (Type' job = JobTypeDatabaseCleanup) then processDatabaseCleanup s job
    else if decide (Type' job = JobTypeIntegration) then processIntegration s job
    else (s, ["Unknown job type: " +:+ Type' job]) in
  (s', line :: out).

(** One round of a worker's loop in which [case job := <-s.jobs] fires:
    the job received, the service after [processJob], and the log. *)
Definition worker_round (s : Service) : option (Job * Service * list string) :=
  match recv (jobs s) with
  | None => None
  | Some (job, c) =>
      let '(s', out) := processJob {| jobs := c; workers := workers s |} job in
      Some (job, s', out)
  end.

(** *** Histories of the shared queue

    The goroutines act on the one channel through atomic sends and
    receives; a history is the order in which these take effect.  A
    worker that finds the channel empty waits, and nothing changes. *)
Inductive Op : Type :=
| Submit (job : Job)     (* some goroutine calls AddJob *)
| Work.                  (* some worker receives and processes a job *)

Record Pool : Type := {
  service : Service;
  accepted : list Job;     (* jobs for which AddJob returned nil, in order *)
  dequeued : list Job      (* jobs received by workers, in order *)
}.

Definition start : Pool :=
  {| service := New; accepted := []; dequeued := [] |}.

Definition step (ErrQueueFull : error) (p : Pool) (op : Op) : Pool :=
  match op with
  | Submit job =>
      match AddJob ErrQueueFull (service p) job with
      | (s, None) =>
          {| service := s; accepted := accepted p ++ [job]; dequeued := dequeued p |}
      | (s, Some _) =>
          {| service := s; accepted := accepted p; dequeued := dequeued p |}
      end
  | Work =>
      match worker_round (service p) with
      | Some (job, s, _) =>
          {| service := s; accepted := accepted p; dequeued := dequeued p ++ [job] |}
      | None => p
      end
  end.

Definition exec (ErrQueueFull : error) (ops : list Op) (p : Pool) : Pool :=
  foldl (step ErrQueueFull) p ops.

(** The job with the least priority value among the pending ones: no
    pending job has a smaller one. *)
Definition lowest_priority (job : Job) (pending : list Job) : Prop :=
  Forall (fun other => Priority job <= Priority other) pending.

(** Sample jobs, both with retries left: routine work and urgent work. *)
Definition job_of (id : string) (type : JobType) (priority retry maxRetry : Z) : Job :=
  {| ID := id; Type' := type; Payload := ∅; Priority := priority;
     Retry := retry; MaxRetry := maxRetry; Created := 0 |}.

Definition routine : Job := job_of "cleanup-1" JobTypeDatabaseCleanup 1000 0 3.
Definition urgent : Job := job_of "renew-1" JobTypeCertificateRenewal 1 0 3.

(** *** The worker loop

    [worker]: what the [select] of each round sees is given; the loop logs
    its start, handles the jobs it receives and returns when the context is
    done.  The result is the service it leaves, the lines logged, and
    whether the loop has returned.  A receive cannot fire on an empty
    channel: the worker waits. *)
Inductive WorkerCase : Type :=
| ctxDone        (* case <-ctx.Done() *)
| jobsReceive.   (* case job := <-s.jobs *)

Fixpoint worker_loop (id : Z) (fired : list WorkerCase) (s : Service)
  : Service * list string * bool :=
  match fired with
  | [] => (s, [], false)
  | ctxDone :: _ => (s, ["Worker " +:+ pretty id +:+ " stopping"], true)
  | jobsReceive :: rest =>
      match worker_round s with
      | None => (s, [], false)
      | Some (_, s', out) =>
          let '(s'', out', stopped) := worker_loop id rest s' in
          (s'', out ++ out', stopped)
      end
  end.

Definition worker (id : Z) (fired : list WorkerCase) (s : Service)
  : Service * list string * bool :=
  let '(s', out, stopped) := worker_loop id fired s in
  (s', ("Worker " +:+ pretty id +:+ " started") :: out, stopped).

(** The job types that [processJob] has a case for. *)
Definition known_types : list JobType :=
  [JobTypeCertificateRenewal; JobTypeCertificateValidation; JobTypeConfigUpdate;
   JobTypeLogProcessing; JobTypeAnalytics; JobTypeDatabaseCleanup;
   JobTypeIntegration].

End queue.

(** ** An in-memory set of collaborators

    The repository has the four interfaces only.  This implementation is
    used to run the manager on concrete data. *)

Module inmem.
Import certificate.

Record World : Type := {
  certs : gmap string Certificate;    (* the certificate store *)
  clock : time.Time;                  (* what time.Now() reads next *)
  signals : list SelectCase           (* what the monitor's select will see *)
}.

Record Behaviour : Type := {
  tick : time.Duration;                        (* time that passes per clock reading *)
  authority : string -> result Certificate;    (* the renewal authority *)
  list_fault : option error;
  store_fault : option error;
  deploy_fault : option error;
  temporary_fault : option error
}.

Definition set_certs (w : World) (cs : gmap string Certificate) : World :=
  {| certs := cs; clock := clock w; signals := signals w |}.

Section WithBehaviour.
Variable b : Behaviour.

Definition acme : ACMEClient.t World :=
  {| ACMEClient.RenewCertificate := fun domain w => (authority b domain, w);
     ACMEClient.ValidateCertificate := fun _ w => (None, w) |}.

(** A store after the persistence contract of the design document: one
    certificate per domain, the domain being the key; [List] reflects all
    committed stores.  It can be made to fail. *)
Definition store : Storage.t World :=
  {| Storage.Store := fun cert w =>
       match store_fault b with
       | Some e => (Some e, w)
       | None => (None, set_certs w (<[Domain cert := cert]> (certs w)))
       end;
     Storage.Retrieve := fun domain w =>
       match certs w !! domain with
       | Some cert => (Ok cert, w)
       | None => (Err "certificate not found", w)
       end;
     Storage.List := fun w =>
       match list_fault b with
       | Some e => (Err e, w)
       | None => (Ok (map_to_list (certs w)).*2, w)
       end;
     Storage.Delete := fun domain w => (None, set_certs w (delete domain (certs w))) |}.

Definition distribute : Distributor.t World :=
  {| Distributor.Deploy := fun _ _ w => (deploy_fault b, w);
     Distributor.DeployTemporary := fun _ w => (temporary_fault b, w) |}.

(** A validator after the design document: [ValidateCertificate] checks
    non-empty key material, expiry after creation and a non-empty domain;
    [CheckExpiration] returns [expiry - now]. *)
Definition validate : Validator.t World :=
  {| Validator.ValidateCertificate := fun cert w =>
       (if bool_decide (CertData cert = []) || bool_decide (PrivateKey cert = [])
        then Some "empty key material"
        else if Expiry cert <=? Created cert then Some "expiry not after creation"
        else if bool_decide (Domain cert = "") then Some "empty domain"
        else None, w);
     Validator.CheckExpiration := fun cert w =>
       (Ok (time.Sub (Expiry cert) (clock w)), w) |}.

Definition runtime : Runtime.t World :=
  {| Runtime.Now := fun w =>
       (clock w, {| certs := certs w; clock := clock w + tick b; signals := signals w |});
     Runtime.Select := fun w =>
       match signals w with
       | [] => (CtxDone, w)
       | s :: rest => (s, {| certs := certs w; clock := clock w; signals := rest |})
       end;
     Runtime.Err := fun w => (Some "context canceled", w) |}.

Definition manager : Manager World := New acme store distribute validate.

End WithBehaviour.

(** Sample data. *)
Definition day : time.Duration := 24 * time.Hour.

Definition cert_for (domain : string) (created expiry : time.Time) : Certificate :=
  {| Domain := domain;
     CertData := [Byte.x30];
     PrivateKey := [Byte.x2d];
     Expiry := expiry;
     Type' := CertificateTypeProduction;
     Created := created;
     LastUpdated := created |}.

(** A world whose clock reads [1000 days] and that stores one certificate
    for api.example.com, expiring in five days. *)
Definition now0 : time.Time := 1000 * day.

Definition api_cert : Certificate :=
  cert_for "api.example.com" (now0 - 85 * day) (now0 + 5 * day).

(** The same store, with the monitor's ticker about to fire twice. *)
Definition two_ticks (w : World) : World :=
  {| certs := certs w; clock := clock w; signals := [TickerC; TickerC] |}.

Definition world0 : World :=
  {| certs := {[ "api.example.com" := api_cert ]};
     clock := now0;
     signals := [] |}.

(** An authority that is down, with a clock advancing 1ns per reading. *)
Definition authority_down : Behaviour :=
  {| tick := 1;
     authority := fun _ => Err "authority unreachable";
     list_fault := None;
     store_fault := None;
     deploy_fault := None;
     temporary_fault := None |}.

(** An authority that issues 90-day certificates. *)
Definition authority_up : Behaviour :=
  {| tick := 1;
     authority := fun domain => Ok (cert_for domain now0 (now0 + 90 * day));
     list_fault := None;
     store_fault := None;
     deploy_fault := None;
     temporary_fault := None |}.

(** An authority that issues certificates the validator rejects. *)
Definition authority_bad : Behaviour :=
  {| tick := 1;
     authority := fun domain => Ok (cert_for domain now0 (now0 - 1));
     list_fault := None;
     store_fault := None;
     deploy_fault := None;
     temporary_fault := None |}.

(** A store that cannot be listed. *)
Definition store_down : Behaviour :=
  {| tick := 1;
     authority := fun _ => Err "authority unreachable";
     list_fault := Some "database unreachable";
     store_fault := Some "database unreachable";
     deploy_fault := None;
     temporary_fault := None |}.

(** A distributor that cannot reach the instances. *)
Definition deploy_down : Behaviour :=
  {| tick := 1;
     authority := fun domain => Ok (cert_for domain now0 (now0 + 90 * day));
     list_fault := None;
     store_fault := None;
     deploy_fault := Some "no instance reachable";
     temporary_fault := None |}.

(** A world that stores one certificate, for static.example.com, with a
    year left. *)
Definition static_cert : Certificate :=
  cert_for "static.example.com" (now0 - 25 * day) (now0 + 365 * day).

Definition world1 : World :=
  {| certs := {[ "static.example.com" := static_cert ]};
     clock := now0;
     signals := [TickerC; TickerC; CtxDone] |}.

(** Nothing reachable: the authority is down and the distributor refuses
    temporary certificates too. *)
Definition all_down : Behaviour :=
  {| tick := 1;
     authority := fun _ => Err "authority unreachable";
     list_fault := None;
     store_fault := None;
     deploy_fault := Some "no instance reachable";
     temporary_fault := Some "no instance reachable" |}.

(** A world that stores two certificates that are due: the one of
    api.example.com (five days left) and one for b.example.com (two days
    left). *)
Definition b_cert : Certificate :=
  cert_for "b.example.com" (now0 - 88 * day) (now0 + 2 * day).

Definition world2 : World :=
  {| certs := {[ "api.example.com" := api_cert; "b.example.com" := b_cert ]};
     clock := now0;
     signals := [] |}.

End inmem.

(** ** Methods over other collaborators

    The packages [config] and [database] follow the pattern of
    [certificate]: a manager over interfaces.  Their methods are trees of
    calls over the calls of the package. *)

Module program.

Section Signature.
Context {Call : Type} {Resp : Call -> Type}.

Inductive Prog (A : Type) : Type :=
| Ret (a : A)
| Vis (c : Call) (k : Resp c -> Prog A).

Fixpoint bind {A B : Type} (p : Prog A) (f : A -> Prog B) : Prog B :=
  match p with
  | Ret _ a => f a
  | Vis _ c k => Vis _ c (fun r => bind (k r) f)
  end.

Definition call (c : Call) : Prog (Resp c) := Vis _ c (Ret _).

Record Outcome (A W : Type) : Type := {
  returned : A;
  world : W;
  calls : list Call
}.

(** Running a method against an implementation of the collaborators, a
    function that answers each call in a world. *)
Fixpoint run {A W : Type} (handle : forall c : Call, W -> Resp c * W)
    (p : Prog A) (w : W) : Outcome A W :=
  match p with
  | Ret _ a => {| returned := a; world := w; calls := [] |}
  | Vis _ c k =>
      let answer := handle c w in
      let o := run handle (k answer.1) answer.2 in
      {| returned := returned _ _ o; world := world _ _ o; calls := c :: calls _ _ o |}
  end.

End Signature.

Arguments Prog Call Resp A : clear implicits.
Arguments Ret {Call Resp A} a.
Arguments Vis {Call Resp A} c k.
Arguments Outcome Call A W : clear implicits.
Arguments returned {Call A W} _.
Arguments world {Call A W} _.
Arguments calls {Call A W} _.

#[export] Instance Prog_ret {Call : Type} {Resp : Call -> Type} : MRet (Prog Call Resp) :=
  fun A a => Ret a.
#[export] Instance Prog_bind {Call : Type} {Resp : Call -> Type} : MBind (Prog Call Resp) :=
  fun A B f p => bind p f.

End program.

(** ** Package [config] *)

Module config.
Import program.

Definition ConfigurationType := string.

Definition ConfigurationTypeWAF : ConfigurationType := "waf".
Definition ConfigurationTypeRouting : ConfigurationType := "routing".
Definition ConfigurationTypeBackend : ConfigurationType := "backend".
Definition ConfigurationTypeSecurity : ConfigurationType := "security".

(** [Data] is a [json.RawMessage], a slice of bytes. *)
Record Configuration : Type := {
  Type' : ConfigurationType;
  Version : string;
  Data : list Byte.byte;
  Created : time.Time;
  LastUpdated : time.Time;
  Active : bool
}.

Record WAFRule : Type := {
  ID : string;
  Name : string;
  Pattern : string;
  Action : string;
  Priority : Z;
  Enabled : bool;
  rule_Created : time.Time;
  rule_LastUpdated : time.Time
}.

Record Route : Type := {
  Path : string;
  Method : string;
  Backend : string;
  Headers : gmap string string;
  route_Priority : Z;
  route_Enabled : bool
}.

Record MiddlewareConfig : Type := {
  middleware_Name : string;
  Config : gmap string string;
  middleware_Enabled : bool
}.

Record RoutingConfig : Type := {
  Routes : list Route;
  DefaultBackend : string;
  Middleware : list MiddlewareConfig
}.

Record ValidationError : Type := {
  Field : string;
  Message : string;
  Code : string
}.

(** The methods of [Storage], [Validator] and [Distributor] that the
    manager calls, [json.Marshal] at the two types it is used at, and the
    clock. *)
Inductive Call : Type :=
| storage_Store (config : Configuration)
| storage_Retrieve (configType version : string)
| storage_GetLatest (configType : string)
| validator_ValidateWAFRules (rules : list WAFRule)
| validator_ValidateRoutingConfig (config : RoutingConfig)
| distributor_DeployWAFRules (rules : list WAFRule) (instances : list string)
| distributor_DeployRoutingConfig (config : RoutingConfig) (instances : list string)
| json_Marshal_rules (rules : list WAFRule)
| json_Marshal_routingConfig (routingConfig : RoutingConfig)
| time_Now.

Definition Resp (c : Call) : Type :=
  match c with
  | storage_Store _ => option error
  | storage_Retrieve _ _ => result Configuration
  | storage_GetLatest _ => result Configuration
  | validator_ValidateWAFRules _ => list ValidationError
  | validator_ValidateRoutingConfig _ => list ValidationError
  | distributor_DeployWAFRules _ _ => option error
  | distributor_DeployRoutingConfig _ _ => option error
  | json_Marshal_rules _ => result (list Byte.byte)
  | json_Marshal_routingConfig _ => result (list Byte.byte)
  | time_Now => time.Time
  end.

(** [NewValidationError]: a placeholder that returns [nil]. *)
Definition NewValidationError (errors : list ValidationError) : option error := None.

Section WithFormat.

(** [t.Format(layout)] of Go's [time] package. *)
Variable Format : time.Time -> string -> string.

Definition generateVersion : Prog Call Resp string :=
  now ← call time_Now;
  mret (Format now "20060102150405").

Definition UpdateWAFRules (rules : list WAFRule) (emergencyDeployment : bool)
  : Prog Call Resp (option error) :=
  let store_and_deploy : Prog Call Resp (option error) :=
    r ← call (json_Marshal_rules rules);
    match r with
    | Err err => mret (Some err)
    | Ok rulesData =>
        version ← generateVersion;
        created ← call time_Now;
        lastUpdated ← call time_Now;
        let config :=
          {| Type' := ConfigurationTypeWAF;
             Version := version;
             Data := rulesData;
             Created := created;
             LastUpdated := lastUpdated;
             Active := true |} in
        serr ← call (storage_Store config);
        match serr with
        | Some err => mret (Some err)
        | None =>
            let instances : list string := [] in
            call (distributor_DeployWAFRules rules instances)
        end
    end in
  if negb emergencyDeployment then
    errors ← call (validator_ValidateWAFRules rules);
    if decide (0 < length errors)%nat
    then mret (NewValidationError errors)
    else store_and_deploy
  else store_and_deploy.

Definition UpdateRoutingConfig (routingConfig : RoutingConfig)
  : Prog Call Resp (option error) :=
  errors ← call (validator_ValidateRoutingConfig routingConfig);
  if decide (0 < length errors)%nat
  then mret (NewValidationError errors)
  else
    r ← call (json_Marshal_routingConfig routingConfig);
    match r with
    | Err err => mret (Some err)
    | Ok configData =>
        version ← generateVersion;
        created ← call time_Now;
        lastUpdated ← call time_Now;
        let config :=
          {| Type' := ConfigurationTypeRouting;
             Version := version;
             Data := configData;
             Created := created;
             LastUpdated := lastUpdated;
             Active := true |} in
        serr ← call (storage_Store config);
        match serr with
        | Some err => mret (Some err)
        | None =>
            let instances : list string := [] in
            call (distributor_DeployRoutingConfig routingConfig instances)
        end
    end.

End WithFormat.

Definition GetConfiguration (configType : ConfigurationType) (version : string)
  : Prog Call Resp (result Configuration) :=
  if decide (version = "")
  then call (storage_GetLatest configType)
  else call (storage_Retrieve configType version).

(** The calls that change what the gateways or the store hold. *)
Definition changes_state (c : Call) : bool :=
  match c with
  | storage_Store _
  | distributor_DeployWAFRules _ _
  | distributor_DeployRoutingConfig _ _ => true
  | _ => false
  end.

Definition is_validation (c : Call) : bool :=
  match c with
  | validator_ValidateWAFRules _
  | validator_ValidateRoutingConfig _ => true
  | _ => false
  end.

(** *** Collaborators in memory, to run the manager on concrete data *)

Record World : Type := {
  stored : list Configuration;     (* what has been stored, latest first *)
  deployed : list (list WAFRule);  (* the rule sets deployed, latest first *)
  clock : time.Time
}.

(** A validator that rejects rules with an empty pattern, a store and a
    distributor that record what they are given. *)
Definition handle (c : Call) : World -> Resp c * World :=
  match c with
  | storage_Store config => fun w =>
      (None, {| stored := config :: stored w; deployed := deployed w; clock := clock w |})
  | storage_Retrieve configType version => fun w =>
      (match filter (fun cfg => Type' cfg = configType /\ Version cfg = version) (stored w) with
       | cfg :: _ => Ok cfg
       | [] => Err "configuration not found"
       end, w)
  | storage_GetLatest configType => fun w =>
      (match filter (fun cfg => Type' cfg = configType) (stored w) with
       | cfg :: _ => Ok cfg
       | [] => Err "configuration not found"
       end, w)
  | validator_ValidateWAFRules rules => fun w =>
      ((fun rule => {| Field := ID rule; Message := "empty pattern"; Code := "E1" |})
         <$> filter (fun rule => Pattern rule = "") rules, w)
  | validator_ValidateRoutingConfig config => fun w =>
      (if decide (DefaultBackend config = "")
       then [{| Field := "default_backend"; Message := "missing"; Code := "E2" |}]
       else [], w)
  | distributor_DeployWAFRules rules _ => fun w =>
      (None, {| stored := stored w; deployed := rules :: deployed w; clock := clock w |})
  | distributor_DeployRoutingConfig _ _ => fun w => (None, w)
  | json_Marshal_rules rules => fun w => (Ok [], w)
  | json_Marshal_routingConfig _ => fun w => (Ok [], w)
  | time_Now => fun w =>
      (clock w, {| stored := stored w; deployed := deployed w; clock := clock w + 1 |})
  end.

Definition empty_world : World := {| stored := []; deployed := []; clock := 0 |}.

Definition bad_rule : WAFRule :=
  {| ID := "r1"; Name := "broken"; Pattern := ""; Action := "block"; Priority := 1000;
     Enabled := true; rule_Created := 0; rule_LastUpdated := 0 |}.

Definition good_rule : WAFRule :=
  {| ID := "r2"; Name := "sqli"; Pattern := "union select"; Action := "block";
     Priority := 10; Enabled := true; rule_Created := 0; rule_LastUpdated := 0 |}.

Definition sample_format (t : time.Time) (layout : string) : string := pretty t.

End config.

(** ** Package [database] *)

Module database.
Import program.

Record Migration : Type := {
  Version : string;
  Name : string;
  Description : string;
  UpSQL : string;
  DownSQL : string;
  CreatedAt : time.Time
}.

(** The methods of the [Migrator] interface. *)
Inductive Call : Type :=
| migrator_GetCurrentVersion
| migrator_GetPendingMigrations
| migrator_ApplyMigration (migration : Migration)
| migrator_RollbackMigration (version : string).

Definition Resp (c : Call) : Type :=
  match c with
  | migrator_GetCurrentVersion => result string
  | migrator_GetPendingMigrations => result (list Migration)
  | migrator_ApplyMigration _ => option error
  | migrator_RollbackMigration _ => option error
  end.

(** The [for _, migration := range migrations] loop of [ApplyMigrations]. *)
Fixpoint rangeMigrations (migrations : list Migration) : Prog Call Resp (option error) :=
  match migrations with
  | [] => mret None
  | migration :: rest =>
      err ← call (migrator_ApplyMigration migration);
      match err with
      | Some e => mret (Some e)
      | None => rangeMigrations rest
      end
  end.

Definition ApplyMigrations : Prog Call Resp (option error) :=
  r ← call migrator_GetPendingMigrations;
  match r with
  | Err err => mret (Some err)
  | Ok migrations => rangeMigrations migrations
  end.

(** *** A migrator in memory: it applies a migration unless its SQL is
    empty, and keeps the versions applied, latest first. *)
Record World : Type := {
  pending : list Migration;
  applied : list string
}.

Definition handle (c : Call) : World -> Resp c * World :=
  match c with
  | migrator_GetCurrentVersion => fun w =>
      (match applied w with v :: _ => Ok v | [] => Err "no version" end, w)
  | migrator_GetPendingMigrations => fun w => (Ok (pending w), w)
  | migrator_ApplyMigration migration => fun w =>
      if decide (UpSQL migration = "")
      then (Some "empty migration", w)
      else (None, {| pending := pending w; applied := Version migration :: applied w |})
  | migrator_RollbackMigration version => fun w =>
      (None, {| pending := pending w; applied := filter (fun v => v <> version) (applied w) |})
  end.

Definition migration_of (version sql : string) : Migration :=
  {| Version := version; Name := "m" +:+ version; Description := "";
     UpSQL := sql; DownSQL := ""; CreatedAt := 0 |}.

Definition three_pending : World :=
  {| pending := [migration_of "001" "create table a";
                 migration_of "002" "";
                 migration_of "003" "create table c"];
     applied := [] |}.

End database.

(** ** Package [main] *)

Module main.

Definition defaultGRPCPort : string := "8080".
Definition defaultHTTPPort : string := "8081".

(** [os.Getenv]: the value of the variable, empty if it is not set.  The
    environment of the process is a map from names to values. *)
Definition Getenv (environ : gmap string string) (key : string) : string :=
  default "" (environ !! key).

Definition getEnv (environ : gmap string string) (key defaultValue : string) : string :=
  let value := Getenv environ key in
  if decide (value <> "") then value else defaultValue.

End main.

(** * Properties *)

Module certificate_run.
Import certificate.

Section Laws.
Context {W : Type} (rt : Runtime.t W) (m : Manager W).

Lemma run_ret {A : Type} (a : A) (w : W) :
  run rt m (mret a) w = {| returned := a; world := w; calls := [] |}.
Proof. reflexivity. Qed.

Lemma run_call (c : Call) (w : W) :
  run rt m (call c) w =
  {| returned := (dispatch rt m c w).1;
     world := (dispatch rt m c w).2;
     calls := [c] |}.
Proof. reflexivity. Qed.

(** Sequencing: the second part starts in the world the first leaves,
    and the calls are those of the first followed by those of the second. *)
Lemma run_bind {A B : Type} (p : Prog A) (f : A -> Prog B) (w : W) :
  run rt m (p ≫= f) w =
  let o := run rt m p w in
  let o' := run rt m (f (returned o)) (world o) in
  {| returned := returned o'; world := world o'; calls := calls o ++ calls o' |}.
Proof.
  unfold mbind, Prog_bind. revert w.
  induction p as [a | c k IH]; intros w; simpl.
  - destruct (run rt m (f a) w); reflexivity.
  - rewrite IH. reflexivity.
Qed.

Lemma run_bind_call {B : Type} (c : Call) (f : Resp c -> Prog B) (w : W) :
  run rt m (call c ≫= f) w =
  let o' := run rt m (f (dispatch rt m c w).1) (dispatch rt m c w).2 in
  {| returned := returned o'; world := world o'; calls := c :: calls o' |}.
Proof. reflexivity. Qed.

(** A view of the world that only writes to the store can change is
    the same after any run that makes no such write. *)
Lemma run_frame {A S : Type} (view : W -> S) (p : Prog A) :
  (forall c w, writes_store c = false -> view (dispatch rt m c w).2 = view w) ->
  forall w,
    Forall (fun c => writes_store c = false) (calls (run rt m p w)) ->
    view (world (run rt m p w)) = view w.
Proof.
  intros Hframe. induction p as [a | c k IH]; intros w; simpl.
  - reflexivity.
  - intros Hall. apply Forall_cons in Hall as [Hc Hrest].
    rewrite (IH _ _ Hrest). auto.
Qed.

Lemma run_rangeCertificates_app (xs ys : list Certificate) (w : W) :
  run rt m (rangeCertificates (xs ++ ys)) w =
  let o := run rt m (rangeCertificates xs) w in
  let o' := run rt m (rangeCertificates ys) (world o) in
  {| returned := returned o'; world := world o'; calls := calls o ++ calls o' |}.
Proof.
  revert w. induction xs as [| x xs IH]; intros w.
  - simpl. destruct (run rt m (rangeCertificates ys) w); reflexivity.
  - change (rangeCertificates ((x :: xs) ++ ys))
      with (sweepCertificate x ≫= fun _ => rangeCertificates (xs ++ ys)).
    change (rangeCertificates (x :: xs))
      with (sweepCertificate x ≫= fun _ => rangeCertificates xs).
    rewrite !run_bind. simpl. rewrite IH. simpl.
    rewrite app_assoc. reflexivity.
Qed.

End Laws.

(** Unfold the run of a method at its first call. *)
Ltac run_first_call :=
  match goal with
  | |- context [run ?rt ?m (@mbind _ _ _ ?B ?f (call ?c)) ?w] =>
      change (run rt m (@mbind _ _ _ B f (call c)) w)
        with (let o' := run rt m (f (dispatch rt m c w).1) (dispatch rt m c w).2 in
              {| returned := returned o'; world := world o'; calls := c :: calls o' |});
      cbv beta zeta; cbn [Resp]
  end.

End certificate_run.

Module certificate_status.
Import certificate certificate_run.

Lemma seven_days : 7 * 24 * time.Hour = 604800000000000.
Proof. reflexivity. Qed.

Lemma thirty_days : 30 * 24 * time.Hour = 2592000000000000.
Proof. reflexivity. Qed.

(** C1.  The status of a certificate is a function of the time until
    expiry [d] alone, with the thresholds: [d <= 0] expired; [0 < d <= 7
    days] expiring; [7 days < d <= 30 days] renewal_due; [d > 30 days]
    valid.  [GetCertificateStatus] reports, for the certificate retrieved
    from the store and the [d] the validator computes for it, exactly
    this classification of [d]. *)
Theorem determineStatus_thresholds :
  forall d : time.Duration,
    (d <= 0 -> determineStatus d = "expired") /\
    (0 < d <= 7 * 24 * time.Hour -> determineStatus d = "expiring") /\
    (7 * 24 * time.Hour < d <= 30 * 24 * time.Hour ->
       determineStatus d = "renewal_due") /\
    (30 * 24 * time.Hour < d -> determineStatus d = "valid") /\
    (forall (W : Type) (rt : Runtime.t W) (m : Manager W) (w w1 w2 : W)
            (domain : string) (cert : Certificate),
        Storage.Retrieve (storage m) domain w = (Ok cert, w1) ->
        Validator.CheckExpiration (validator m) cert w1 = (Ok d, w2) ->
        returned (run rt m (GetCertificateStatus domain) w) =
        Ok {| status_Domain := domain;
              status_Type := Type' cert;
              status_Expiry := Expiry cert;
              TimeUntilExpiry := d;
              Status := determineStatus d |}).
Proof.
  intros d. unfold determineStatus.
  rewrite seven_days, thirty_days.
  repeat split.
  - intros H. destruct (Z.leb_spec d 0); [reflexivity | lia].
  - intros [H1 H2].
    destruct (Z.leb_spec d 0); [lia |].
    destruct (Z.leb_spec d 604800000000000); [reflexivity | lia].
  - intros [H1 H2].
    destruct (Z.leb_spec d 0); [lia |].
    destruct (Z.leb_spec d 604800000000000); [lia |].
    destruct (Z.leb_spec d 2592000000000000); [reflexivity | lia].
  - intros H.
    destruct (Z.leb_spec d 0); [lia |].
    destruct (Z.leb_spec d 604800000000000); [lia |].
    destruct (Z.leb_spec d 2592000000000000); [lia | reflexivity].
  - intros W rt m w w1 w2 domain cert Hget Hcheck.
    unfold GetCertificateStatus. simpl.
    rewrite Hget. simpl. rewrite Hcheck. reflexivity.
Qed.

(** The four sample points of the design document, and the status read
    for a stored certificate that expires in five days. *)
Lemma determineStatus_thresholds_witness :
  determineStatus (- time.Second) = "expired" /\
  determineStatus (3 * inmem.day) = "expiring" /\
  determineStatus (20 * inmem.day) = "renewal_due" /\
  determineStatus (60 * inmem.day) = "valid" /\
  Status <$> match returned (run (inmem.runtime inmem.authority_up)
                    (inmem.manager inmem.authority_up)
                    (GetCertificateStatus "api.example.com") inmem.world0) with
             | Ok st => Some st
             | Err _ => None
             end = Some "expiring".
Proof.
  split; [| split; [| split; [| split]]].
  - apply (determineStatus_thresholds (- time.Second)). vm_compute. discriminate.
  - apply (determineStatus_thresholds (3 * inmem.day)). vm_compute. split; [reflexivity | discriminate].
  - apply (determineStatus_thresholds (20 * inmem.day)). vm_compute. split; [reflexivity | discriminate].
  - apply (determineStatus_thresholds (60 * inmem.day)). vm_compute. reflexivity.
  - pose proof (determineStatus_thresholds (5 * inmem.day)) as (_ & _ & _ & _ & H).
    rewrite (H _ (inmem.runtime inmem.authority_up) (inmem.manager inmem.authority_up)
               inmem.world0 inmem.world0 inmem.world0 "api.example.com" inmem.api_cert
               eq_refl eq_refl).
    reflexivity.
Defined.

End certificate_status.

Module inmem_facts.
Import certificate inmem.

(** In memory, only [Store] and [Delete] change the stored certificates. *)
Lemma inmem_frame (b : Behaviour) (c : Call) (w : World) :
  writes_store c = false ->
  certs (dispatch (runtime b) (manager b) c w).2 = certs w.
Proof.
  destruct c; simpl; try discriminate; intros _; try reflexivity.
  - destruct (certs w !! domain); reflexivity.
  - destruct (list_fault b); reflexivity.
  - destruct (signals w); reflexivity.
Qed.

End inmem_facts.

Module certificate_renewal.
Import certificate certificate_run.

Section Renew.
Context {W : Type} (rt : Runtime.t W) (m : Manager W).

Lemma renewCertificate_authority_error domain w e w1 :
  ACMEClient.RenewCertificate (acmeClient m) domain w = (Err e, w1) ->
  run rt m (renewCertificate domain) w =
  {| returned := Some e; world := w1;
     calls := [acmeClient_RenewCertificate domain] |}.
Proof. intros H. unfold renewCertificate. simpl. rewrite H. reflexivity. Qed.

Lemma renewCertificate_validation_error domain w newCert w1 e w2 :
  ACMEClient.RenewCertificate (acmeClient m) domain w = (Ok newCert, w1) ->
  Validator.ValidateCertificate (validator m) newCert w1 = (Some e, w2) ->
  run rt m (renewCertificate domain) w =
  {| returned := Some e; world := w2;
     calls := [acmeClient_RenewCertificate domain;
               validator_ValidateCertificate newCert] |}.
Proof.
  intros H1 H2. unfold renewCertificate. simpl.
  rewrite H1. simpl. rewrite H2. reflexivity.
Qed.

Lemma renewCertificate_store_error domain w newCert w1 w2 e w3 :
  ACMEClient.RenewCertificate (acmeClient m) domain w = (Ok newCert, w1) ->
  Validator.ValidateCertificate (validator m) newCert w1 = (None, w2) ->
  Storage.Store (storage m) newCert w2 = (Some e, w3) ->
  run rt m (renewCertificate domain) w =
  {| returned := Some e; world := w3;
     calls := [acmeClient_RenewCertificate domain;
               validator_ValidateCertificate newCert;
               storage_Store newCert] |}.
Proof.
  intros H1 H2 H3. unfold renewCertificate. simpl.
  rewrite H1. simpl. rewrite H2. simpl. rewrite H3. reflexivity.
Qed.

Lemma renewCertificate_stored domain w newCert w1 w2 w3 :
  ACMEClient.RenewCertificate (acmeClient m) domain w = (Ok newCert, w1) ->
  Validator.ValidateCertificate (validator m) newCert w1 = (None, w2) ->
  Storage.Store (storage m) newCert w2 = (None, w3) ->
  run rt m (renewCertificate domain) w =
  {| returned := (Distributor.Deploy (distributor m) newCert [] w3).1;
     world := (Distributor.Deploy (distributor m) newCert [] w3).2;
     calls := [acmeClient_RenewCertificate domain;
               validator_ValidateCertificate newCert;
               storage_Store newCert;
               distributor_Deploy newCert []] |}.
Proof.
  intros H1 H2 H3. unfold renewCertificate. simpl.
  rewrite H1. simpl. rewrite H2. simpl. rewrite H3. reflexivity.
Qed.

(** The first call of a renewal is the call on the authority. *)
Lemma renewCertificate_starts domain w :
  exists rest,
    calls (run rt m (renewCertificate domain) w) =
    acmeClient_RenewCertificate domain :: rest.
Proof. unfold renewCertificate. simpl. eauto. Qed.

(** A renewal calls the authority once. *)
Lemma renewCertificate_renewals domain w :
  omap is_renewal (calls (run rt m (renewCertificate domain) w)) = [domain].
Proof.
  unfold renewCertificate. simpl.
  destruct (ACMEClient.RenewCertificate (acmeClient m) domain w) as [[c | e] w1];
    simpl; [| reflexivity].
  destruct (Validator.ValidateCertificate (validator m) c w1) as [[e |] w2];
    simpl; [reflexivity |].
  destruct (Storage.Store (storage m) c w2) as [[e |] w3]; reflexivity.
Qed.

End Renew.

(** C3.  [renewCertificate] calls the authority, then the validator on the
    certificate the authority returned, then the store, then the
    distributor, each step only if the one before returned no error.  If
    the authority or the validator returns an error the run makes no call
    that writes the store, and what is stored (any view of the world that
    only store writes change) is as before; a [Store] call is made only
    for a certificate that the authority returned and the validator
    accepted. *)
Theorem renewCertificate_store_after_validation :
  forall (W S : Type) (rt : Runtime.t W) (m : Manager W) (stored : W -> S)
         (domain : string) (w : W),
    (forall c w', writes_store c = false ->
                  stored (dispatch rt m c w').2 = stored w') ->
    let o := run rt m (renewCertificate domain) w in
    let renewed := ACMEClient.RenewCertificate (acmeClient m) domain w in
    match renewed.1 with
    | Err e =>
        returned o = Some e /\
        calls o = [acmeClient_RenewCertificate domain] /\
        stored (world o) = stored w
    | Ok newCert =>
        let validated :=
          Validator.ValidateCertificate (validator m) newCert renewed.2 in
        match validated.1 with
        | Some e =>
            returned o = Some e /\
            calls o = [acmeClient_RenewCertificate domain;
                       validator_ValidateCertificate newCert] /\
            stored (world o) = stored w
        | None =>
            let saved := Storage.Store (storage m) newCert validated.2 in
            match saved.1 with
            | Some e =>
                returned o = Some e /\
                calls o = [acmeClient_RenewCertificate domain;
                           validator_ValidateCertificate newCert;
                           storage_Store newCert]
            | None =>
                returned o =
                  (Distributor.Deploy (distributor m) newCert [] saved.2).1 /\
                calls o = [acmeClient_RenewCertificate domain;
                           validator_ValidateCertificate newCert;
                           storage_Store newCert;
                           distributor_Deploy newCert []]
            end
        end
    end.
Proof.
  intros W S rt m stored domain w Hframe o renewed.
  subst o renewed.
  pose proof (Hframe (acmeClient_RenewCertificate domain) w eq_refl) as F1.
  simpl in F1.
  destruct (ACMEClient.RenewCertificate (acmeClient m) domain w)
    as [[newCert | e] w1] eqn:Hrenew; cbn [fst snd] in *; cbv zeta.
  - pose proof (Hframe (validator_ValidateCertificate newCert) w1 eq_refl) as F2.
    simpl in F2.
    destruct (Validator.ValidateCertificate (validator m) newCert w1)
      as [[e |] w2] eqn:Hvalid; cbn [fst snd] in *.
    + rewrite (renewCertificate_validation_error rt m _ _ _ _ _ _ Hrenew Hvalid).
      cbn [returned calls world]. repeat split. congruence.
    + destruct (Storage.Store (storage m) newCert w2) as [[e |] w3] eqn:Hstore;
        cbn [fst snd].
      * rewrite (renewCertificate_store_error rt m _ _ _ _ _ _ _ Hrenew Hvalid Hstore).
        split; reflexivity.
      * rewrite (renewCertificate_stored rt m _ _ _ _ _ _ Hrenew Hvalid Hstore).
        split; reflexivity.
  - rewrite (renewCertificate_authority_error rt m _ _ _ _ Hrenew).
    cbn [returned calls world]. repeat split. exact F1.
Qed.

(** In memory: the authority issues a certificate that is already past
    its expiry; the validator rejects it and the stored certificate stays. *)
Lemma renewCertificate_store_after_validation_witness :
  let o := run (inmem.runtime inmem.authority_bad) (inmem.manager inmem.authority_bad)
               (renewCertificate "api.example.com") inmem.world0 in
  returned o = Some "expiry not after creation" /\
  calls o = [acmeClient_RenewCertificate "api.example.com";
             validator_ValidateCertificate
               (inmem.cert_for "api.example.com" inmem.now0 (inmem.now0 - 1))] /\
  inmem.certs (world o) !! "api.example.com" = Some inmem.api_cert.
Proof.
  exact (renewCertificate_store_after_validation _ _
           (inmem.runtime inmem.authority_bad) (inmem.manager inmem.authority_bad)
           (fun w => inmem.certs w !! "api.example.com")
           "api.example.com" inmem.world0
           (fun c w' Hc =>
              f_equal (fun cs : gmap string Certificate => cs !! "api.example.com")
                      (inmem_facts.inmem_frame inmem.authority_bad c w' Hc))).
Defined.

End certificate_renewal.


Module certificate_temporary.
Import certificate certificate_run.

Section Temporary.
Context {W : Type} (rt : Runtime.t W) (m : Manager W).

Lemma run_deployTemporaryCertificate (domain reason : string) (w : W) :
  run rt m (deployTemporaryCertificate domain reason) w =
  let w3 := (Runtime.Now rt (Runtime.Now rt (Runtime.Now rt w).2).2).2 in
  let tc := temporary_in rt w domain reason in
  let pushed := Distributor.DeployTemporary (distributor m) tc w3 in
  {| returned := pushed.1;
     world := pushed.2;
     calls := [time_Now; time_Now; time_Now; distributor_DeployTemporary tc] |}.
Proof. reflexivity. Qed.

End Temporary.

(** C10.  The temporary-certificate fallback makes exactly four calls:
    three readings of the clock and [DeployTemporary] on the certificate
    it built for the domain and reason given.  None of them writes the
    certificate store, and what is stored (any view of the world that only
    store writes change) is as before. *)
Theorem deployTemporaryCertificate_leaves_store :
  forall (W S : Type) (rt : Runtime.t W) (m : Manager W) (stored : W -> S)
         (domain reason : string) (w : W),
    (forall c w', writes_store c = false ->
                  stored (dispatch rt m c w').2 = stored w') ->
    let o := run rt m (deployTemporaryCertificate domain reason) w in
    (exists tc,
        calls o = [time_Now; time_Now; time_Now; distributor_DeployTemporary tc] /\
        Domain (Certificate' tc) = domain /\
        Reason tc = reason) /\
    Forall (fun c => writes_store c = false) (calls o) /\
    stored (world o) = stored w.
Proof.
  intros W S rt m stored domain reason w Hframe o.
  assert (Hcalls : Forall (fun c => writes_store c = false) (calls o)).
  { subst o. rewrite run_deployTemporaryCertificate. cbn [calls].
    repeat constructor. }
  split; [| split].
  - exists (temporary_in rt w domain reason).
    subst o. rewrite run_deployTemporaryCertificate. repeat split.
  - exact Hcalls.
  - subst o. apply run_frame; assumption.
Qed.

(** In memory: the fallback for api.example.com leaves the stored
    production certificate in place. *)
Lemma deployTemporaryCertificate_leaves_store_witness :
  let o := run (inmem.runtime inmem.authority_down) (inmem.manager inmem.authority_down)
               (deployTemporaryCertificate "api.example.com" "renewal_failed")
               inmem.world0 in
  Forall (fun c => writes_store c = false) (calls o) /\
  inmem.certs (world o) !! "api.example.com" = Some inmem.api_cert.
Proof.
  pose proof (deployTemporaryCertificate_leaves_store _ _
                (inmem.runtime inmem.authority_down)
                (inmem.manager inmem.authority_down)
                (fun w => inmem.certs w !! "api.example.com")
                "api.example.com" "renewal_failed" inmem.world0) as H.
  destruct H as (_ & Hcalls & Hstored).
  - intros c w' Hc. simpl. rewrite inmem_facts.inmem_frame by exact Hc. reflexivity.
  - split; [exact Hcalls |]. etransitivity; [exact Hstored | reflexivity].
Defined.

End certificate_temporary.

Module certificate_sweep.
Import certificate certificate_run certificate_renewal certificate_temporary.

Section Sweep.
Context {W : Type} (rt : Runtime.t W) (m : Manager W).

Lemma run_sweepCertificate (cert : Certificate) (w : W) :
  run rt m (sweepCertificate cert) w =
  let reading := Runtime.Now rt w in
  if time.Until (Expiry cert) reading.1 <=? 30 * 24 * time.Hour then
    let renewal := run rt m (renewCertificate (Domain cert)) reading.2 in
    match returned renewal with
    | Some _ =>
        let fallback :=
          run rt m (deployTemporaryCertificate (Domain cert) "renewal_failed")
              (world renewal) in
        {| returned := tt; world := world fallback;
           calls := time_Now :: calls renewal ++ calls fallback |}
    | None =>
        {| returned := tt; world := world renewal;
           calls := time_Now :: calls renewal |}
    end
  else {| returned := tt; world := reading.2; calls := [time_Now] |}.
Proof.
  unfold sweepCertificate. run_first_call. cbv zeta.
  change (dispatch rt m time_Now w) with (Runtime.Now rt w).
  destruct (time.Until (Expiry cert) (Runtime.Now rt w).1 <=? 30 * 24 * time.Hour).
  - rewrite run_bind. cbv zeta.
    destruct (returned (run rt m (renewCertificate (Domain cert)) (Runtime.Now rt w).2)).
    + rewrite run_bind. cbn [run mret Prog_ret returned world calls].
      rewrite app_nil_r. reflexivity.
    + cbn [run mret Prog_ret returned world calls].
      rewrite app_nil_r. reflexivity.
  - reflexivity.
Qed.

Lemma run_rangeCertificates_cons (cert : Certificate) (rest : list Certificate) (w : W) :
  run rt m (rangeCertificates (cert :: rest)) w =
  let o := run rt m (sweepCertificate cert) w in
  let o' := run rt m (rangeCertificates rest) (world o) in
  {| returned := returned o'; world := world o'; calls := calls o ++ calls o' |}.
Proof.
  change (rangeCertificates (cert :: rest))
    with (sweepCertificate cert ≫= fun _ => rangeCertificates rest).
  apply run_bind.
Qed.

Lemma run_checkAndRenewCertificates_listed (w w0 : W) (certificates : list Certificate) :
  Storage.List (storage m) w = (Ok certificates, w0) ->
  run rt m checkAndRenewCertificates w =
  let o := run rt m (rangeCertificates certificates) w0 in
  {| returned := None; world := world o; calls := storage_List :: calls o |}.
Proof.
  intros H. unfold checkAndRenewCertificates. run_first_call.
  change (dispatch rt m storage_List w) with (Storage.List (storage m) w).
  rewrite H. cbn [fst snd]. rewrite run_bind. cbn [run mret Prog_ret returned world calls].
  rewrite app_nil_r. reflexivity.
Qed.

Lemma run_checkAndRenewCertificates_failed (w w0 : W) (e : error) :
  Storage.List (storage m) w = (Err e, w0) ->
  run rt m checkAndRenewCertificates w =
  {| returned := Some e; world := w0; calls := [storage_List] |}.
Proof.
  intros H. unfold checkAndRenewCertificates. run_first_call.
  change (dispatch rt m storage_List w) with (Storage.List (storage m) w).
  rewrite H. reflexivity.
Qed.

(** The sweep, cut at one of the listed certificates. *)
Lemma run_checkAndRenewCertificates_at (w w0 : W) (before after : list Certificate)
    (cert : Certificate) :
  Storage.List (storage m) w = (Ok (before ++ cert :: after), w0) ->
  let reached := run rt m (rangeCertificates before) w0 in
  let here := run rt m (sweepCertificate cert) (world reached) in
  let beyond := run rt m (rangeCertificates after) (world here) in
  run rt m checkAndRenewCertificates w =
  {| returned := None; world := world beyond;
     calls := storage_List :: calls reached ++ calls here ++ calls beyond |}.
Proof.
  intros H. rewrite (run_checkAndRenewCertificates_listed _ _ _ H).
  rewrite run_rangeCertificates_app. cbv zeta. cbn [world calls].
  rewrite run_rangeCertificates_cons. reflexivity.
Qed.

End Sweep.

(** C2 (as the code has it).  When a sweep reaches a listed certificate
    that is due (at most 30 days left) and its renewal chain returns an
    error, whatever the step that failed, the same sweep goes on, right
    after the renewal's calls, to read the clock three times and call
    [DeployTemporary] on a certificate for that domain: of type temporary,
    [ValidityDays] 14, marked temporary, with the non-empty reason
    renewal_failed.  Its [Created] is the first of the three readings and
    its [Expiry] is the third reading plus 14 days. *)
Theorem sweep_failure_deploys_temporary :
  forall (W : Type) (rt : Runtime.t W) (m : Manager W) (w w0 : W)
         (before after : list Certificate) (cert : Certificate),
    Storage.List (storage m) w = (Ok (before ++ cert :: after), w0) ->
    let reached := run rt m (rangeCertificates before) w0 in
    let reading := Runtime.Now rt (world reached) in
    time.Until (Expiry cert) reading.1 <= 30 * 24 * time.Hour ->
    let renewal := run rt m (renewCertificate (Domain cert)) reading.2 in
    returned renewal <> None ->
    let first := Runtime.Now rt (world renewal) in
    let second := Runtime.Now rt first.2 in
    let third := Runtime.Now rt second.2 in
    exists (tc : TemporaryCertificate) (rest : list Call),
      calls (run rt m checkAndRenewCertificates w) =
        (storage_List :: calls reached ++ time_Now :: calls renewal ++
         [time_Now; time_Now; time_Now]) ++
        distributor_DeployTemporary tc :: rest /\
      Domain (Certificate' tc) = Domain cert /\
      Type' (Certificate' tc) = CertificateTypeTemporary /\
      ValidityDays tc = 14 /\
      IsTemporary tc = true /\
      Reason tc = "renewal_failed" /\
      Reason tc <> "" /\
      Created (Certificate' tc) = first.1 /\
      Expiry (Certificate' tc) = time.Add third.1 (14 * 24 * time.Hour).
Proof.
  intros W rt m w w0 before after cert Hlist reached reading Hdue renewal Hfail
         first second third.
  set (here := run rt m (sweepCertificate cert) (world reached)).
  set (tc := temporary_in rt (world renewal) (Domain cert) "renewal_failed").
  assert (Hhere : calls here =
                  time_Now :: calls renewal ++
                  [time_Now; time_Now; time_Now; distributor_DeployTemporary tc]).
  { subst here. rewrite run_sweepCertificate. cbv zeta. fold reading.
    apply Z.leb_le in Hdue. rewrite Hdue. fold renewal.
    destruct (returned renewal) as [e |]; [| congruence].
    rewrite run_deployTemporaryCertificate. reflexivity. }
  exists tc, (calls (run rt m (rangeCertificates after) (world here))).
  split; [| repeat split; discriminate].
  rewrite (run_checkAndRenewCertificates_at rt m _ _ _ _ _ Hlist).
  cbn [calls]. fold reached here. rewrite Hhere.
  generalize (calls (run rt m (rangeCertificates after) (world here))) as beyond.
  intros beyond. simpl. f_equal.
  rewrite <- !app_assoc. f_equal. simpl. f_equal.
  rewrite <- !app_assoc. reflexivity.
Qed.

(** In memory, with the authority down: the sweep that finds the
    certificate of api.example.com due deploys a temporary one. *)
Lemma sweep_failure_deploys_temporary_witness :
  exists (tc : TemporaryCertificate) (rest : list Call),
    calls (run (inmem.runtime inmem.authority_down) (inmem.manager inmem.authority_down)
               checkAndRenewCertificates inmem.world0) =
      [storage_List; time_Now; acmeClient_RenewCertificate "api.example.com";
       time_Now; time_Now; time_Now] ++ distributor_DeployTemporary tc :: rest /\
    Domain (Certificate' tc) = "api.example.com" /\
    Reason tc = "renewal_failed" /\
    Expiry (Certificate' tc) = inmem.now0 + 3 + 14 * inmem.day.
Proof.
  destruct (sweep_failure_deploys_temporary _
              (inmem.runtime inmem.authority_down) (inmem.manager inmem.authority_down)
              inmem.world0 inmem.world0 [] [] inmem.api_cert)
    as (tc & rest & Hcalls & Hdomain & _ & _ & _ & Hreason & _ & _ & Hexpiry).
  - vm_compute. reflexivity.
  - vm_compute. discriminate.
  - vm_compute. discriminate.
  - exists tc, rest. vm_compute in Hcalls, Hexpiry. vm_compute.
    repeat split; assumption.
Defined.

(** C2 (as stated, refuted).  The clock is read once for [Created] and
    again for [Expiry]; with a clock that moves between the readings the
    temporary certificate deployed does not expire at [Created] plus 14
    days. *)
Lemma temporary_expiry_is_not_creation_plus_14_days :
  exists tc : TemporaryCertificate,
    omap deployed_temporary
         (calls (run (inmem.runtime inmem.authority_down)
                     (inmem.manager inmem.authority_down)
                     checkAndRenewCertificates inmem.world0)) = [tc] /\
    Created (Certificate' tc) = inmem.now0 + 1 /\
    Expiry (Certificate' tc) = inmem.now0 + 3 + 14 * 24 * time.Hour /\
    Expiry (Certificate' tc) <>
      time.Add (Created (Certificate' tc)) (14 * 24 * time.Hour).
Proof.
  eexists. split; [vm_compute; reflexivity |].
  vm_compute. repeat split; discriminate.
Qed.




End certificate_sweep.

Module certificate_monitor.
Import certificate certificate_run certificate_renewal certificate_temporary
       certificate_sweep.

Section Monitor.
Context {W : Type} (rt : Runtime.t W) (m : Manager W).

Lemma sweep_error_iff_list_error (w : W) :
  returned (run rt m checkAndRenewCertificates w) =
  match (Storage.List (storage m) w).1 with
  | Ok _ => None
  | Err e => Some e
  end.
Proof.
  destruct (Storage.List (storage m) w) as [[certificates | e] w0] eqn:Hlist.
  - rewrite (run_checkAndRenewCertificates_listed rt m _ _ _ Hlist). reflexivity.
  - rewrite (run_checkAndRenewCertificates_failed rt m _ _ _ Hlist). reflexivity.
Qed.

Lemma sweepCertificate_checks_expiry (cert : Certificate) (w : W) :
  exists tail, calls (run rt m (sweepCertificate cert) w) = time_Now :: tail.
Proof.
  rewrite run_sweepCertificate. cbv zeta.
  destruct (time.Until (Expiry cert) (Runtime.Now rt w).1 <=? 30 * 24 * time.Hour);
    [| eauto].
  destruct (returned (run rt m (renewCertificate (Domain cert)) (Runtime.Now rt w).2));
    cbn [calls]; eauto.
Qed.

Lemma run_MonitorCertificates_tick (rounds : nat) (w : W) :
  (Runtime.Select rt w).1 = TickerC ->
  let swept := run rt m checkAndRenewCertificates (Runtime.Select rt w).2 in
  let next := run rt m (MonitorCertificates rounds) (world swept) in
  run rt m (MonitorCertificates (S rounds)) w =
  {| returned := returned next; world := world next;
     calls := select_Done_or_Tick :: calls swept ++ calls next |}.
Proof.
  intros Htick. cbn [MonitorCertificates]. run_first_call.
  change (dispatch rt m select_Done_or_Tick w) with (Runtime.Select rt w).
  rewrite Htick. rewrite run_bind. cbv zeta.
  destruct (returned (run rt m checkAndRenewCertificates (Runtime.Select rt w).2));
    reflexivity.
Qed.

Lemma run_MonitorCertificates_done (rounds : nat) (w : W) :
  (Runtime.Select rt w).1 = CtxDone ->
  run rt m (MonitorCertificates (S rounds)) w =
  {| returned := Some (Runtime.Err rt (Runtime.Select rt w).2).1;
     world := (Runtime.Err rt (Runtime.Select rt w).2).2;
     calls := [select_Done_or_Tick; ctx_Err] |}.
Proof.
  intros Hdone. cbn [MonitorCertificates]. run_first_call.
  change (dispatch rt m select_Done_or_Tick w) with (Runtime.Select rt w).
  rewrite Hdone. reflexivity.
Qed.

Lemma MonitorCertificates_returns_on_done (rounds : nat) :
  forall (w : W) (e : option error),
    returned (run rt m (MonitorCertificates rounds) w) = Some e ->
    exists front,
      calls (run rt m (MonitorCertificates rounds) w) =
      front ++ [select_Done_or_Tick; ctx_Err].
Proof.
  induction rounds as [| rounds IH]; intros w e Hret.
  - discriminate Hret.
  - destruct (Runtime.Select rt w).1 eqn:Hsel.
    + rewrite (run_MonitorCertificates_done _ _ Hsel). exists []. reflexivity.
    + rewrite (run_MonitorCertificates_tick _ _ Hsel) in *.
      cbv zeta in *. cbn [returned calls] in *.
      destruct (IH _ _ Hret) as [front Hfront]. rewrite Hfront.
      exists (select_Done_or_Tick ::
              calls (run rt m checkAndRenewCertificates (Runtime.Select rt w).2) ++ front).
      simpl. rewrite <- app_assoc. reflexivity.
Qed.

(** A due certificate whose renewal fails: the fallback runs in the world
    the renewal leaves, and the loop body ends in the world the fallback
    leaves, whatever the fallback returned. *)
Lemma run_sweepCertificate_failed (cert : Certificate) (w : W) :
  time.Until (Expiry cert) (Runtime.Now rt w).1 <= 30 * 24 * time.Hour ->
  returned (run rt m (renewCertificate (Domain cert)) (Runtime.Now rt w).2) <> None ->
  let renewal := run rt m (renewCertificate (Domain cert)) (Runtime.Now rt w).2 in
  let fallback :=
    run rt m (deployTemporaryCertificate (Domain cert) "renewal_failed")
        (world renewal) in
  run rt m (sweepCertificate cert) w =
  {| returned := tt; world := world fallback;
     calls := time_Now :: calls renewal ++ calls fallback |}.
Proof.
  intros Hdue Hfail renewal fallback. rewrite run_sweepCertificate. cbv zeta.
  apply Z.leb_le in Hdue. rewrite Hdue. fold renewal. fold renewal in Hfail.
  destruct (returned renewal) as [e |]; [reflexivity | congruence].
Qed.

(** Every certificate the loop comes to has its expiry checked, and is
    renewed if it is due. *)
Lemma sweepCertificate_checks_and_renews (cert : Certificate) (w : W) :
  exists rest,
    calls (run rt m (sweepCertificate cert) w) = time_Now :: rest /\
    (time.Until (Expiry cert) (Runtime.Now rt w).1 <= 30 * 24 * time.Hour ->
     exists rest', rest = acmeClient_RenewCertificate (Domain cert) :: rest').
Proof.
  rewrite run_sweepCertificate. cbv zeta.
  destruct (Z.leb_spec (time.Until (Expiry cert) (Runtime.Now rt w).1)
                       (30 * 24 * time.Hour)) as [Hdue | Hvalid].
  - destruct (renewCertificate_starts rt m (Domain cert) (Runtime.Now rt w).2)
      as [tail Htail].
    destruct (returned (run rt m (renewCertificate (Domain cert)) (Runtime.Now rt w).2));
      cbn [calls]; rewrite Htail; eexists; (split; [reflexivity |]);
      intros _; simpl; eauto.
  - eexists. split; [reflexivity |]. intros Hdue. lia.
Qed.

Lemma run_MonitorCertificates_list_error (rounds : nat) (w w1 : W) (e : error) :
  (Runtime.Select rt w).1 = TickerC ->
  Storage.List (storage m) (Runtime.Select rt w).2 = (Err e, w1) ->
  let next := run rt m (MonitorCertificates rounds) w1 in
  run rt m (MonitorCertificates (S rounds)) w =
  {| returned := returned next; world := world next;
     calls := select_Done_or_Tick :: storage_List :: calls next |}.
Proof.
  intros Htick Hlist next.
  rewrite (run_MonitorCertificates_tick rounds w Htick). cbv zeta.
  rewrite (run_checkAndRenewCertificates_failed rt m _ _ _ Hlist). reflexivity.
Qed.

End Monitor.

(** C8.  A failure at one domain stays at that domain.  When a sweep comes
    to a listed certificate that is due and its renewal fails, then whatever
    [DeployTemporary] returns for the fallback, an error included, the sweep
    goes on: its next call is the expiry check of the next listed
    certificate, which is renewed in turn if it is due, and the sweep
    returns [nil].  A sweep returns an error exactly when listing the store
    fails, and then that error; whatever happens at one certificate the
    sweep runs the loop body for each further one.  In the monitor loop a
    tick runs a sweep and, whether or not the sweep returned an error, the
    loop goes on with the next round: after a sweep whose listing failed
    the loop is in its next round; it returns only through the branch for
    the cancelled context. *)
Theorem sweep_failures_are_contained :
  forall (W : Type) (rt : Runtime.t W) (m : Manager W),
    (forall (w w0 : W) (before after : list Certificate) (cert next : Certificate)
            (failed : option error),
        Storage.List (storage m) w = (Ok (before ++ cert :: next :: after), w0) ->
        let reached := run rt m (rangeCertificates before) w0 in
        let reading := Runtime.Now rt (world reached) in
        time.Until (Expiry cert) reading.1 <= 30 * 24 * time.Hour ->
        let renewal := run rt m (renewCertificate (Domain cert)) reading.2 in
        returned renewal <> None ->
        let fallback :=
          run rt m (deployTemporaryCertificate (Domain cert) "renewal_failed")
              (world renewal) in
        returned fallback = failed ->
        let reading' := Runtime.Now rt (world fallback) in
        exists (tc : TemporaryCertificate) (rest : list Call),
          returned (run rt m checkAndRenewCertificates w) = None /\
          calls (run rt m checkAndRenewCertificates w) =
            (storage_List :: calls reached ++ time_Now :: calls renewal ++
             [time_Now; time_Now; time_Now; distributor_DeployTemporary tc]) ++
            time_Now :: rest /\
          Domain (Certificate' tc) = Domain cert /\
          (time.Until (Expiry next) reading'.1 <= 30 * 24 * time.Hour ->
           exists rest', rest = acmeClient_RenewCertificate (Domain next) :: rest')) /\
    (forall w : W,
        returned (run rt m checkAndRenewCertificates w) =
        match (Storage.List (storage m) w).1 with
        | Ok _ => None
        | Err e => Some e
        end) /\
    (forall (w w0 : W) (before after : list Certificate) (cert : Certificate),
        Storage.List (storage m) w = (Ok (before ++ cert :: after), w0) ->
        let reached := run rt m (rangeCertificates before) w0 in
        let here := run rt m (sweepCertificate cert) (world reached) in
        let beyond := run rt m (rangeCertificates after) (world here) in
        calls (run rt m checkAndRenewCertificates w) =
          storage_List :: calls reached ++ calls here ++ calls beyond /\
        exists tail, calls here = time_Now :: tail) /\
    (forall (rounds : nat) (w : W),
        (Runtime.Select rt w).1 = TickerC ->
        let swept := run rt m checkAndRenewCertificates (Runtime.Select rt w).2 in
        let next := run rt m (MonitorCertificates rounds) (world swept) in
        run rt m (MonitorCertificates (S rounds)) w =
        {| returned := returned next; world := world next;
           calls := select_Done_or_Tick :: calls swept ++ calls next |}) /\
    (forall (rounds : nat) (w w1 : W) (e : error),
        (Runtime.Select rt w).1 = TickerC ->
        Storage.List (storage m) (Runtime.Select rt w).2 = (Err e, w1) ->
        let next := run rt m (MonitorCertificates rounds) w1 in
        run rt m (MonitorCertificates (S rounds)) w =
        {| returned := returned next; world := world next;
           calls := select_Done_or_Tick :: storage_List :: calls next |}) /\
    (forall (rounds : nat) (w : W) (e : option error),
        returned (run rt m (MonitorCertificates rounds) w) = Some e ->
        exists front,
          calls (run rt m (MonitorCertificates rounds) w) =
          front ++ [select_Done_or_Tick; ctx_Err]).
Proof.
  intros W rt m. split; [| split; [| split; [| split; [| split]]]].
  - intros w w0 before after cert next failed Hlist reached reading Hdue renewal
           Hfail fallback _ reading'.
    set (here := run rt m (sweepCertificate cert) (world reached)).
    assert (Hhere : here =
                    {| returned := tt; world := world fallback;
                       calls := time_Now :: calls renewal ++ calls fallback |}).
    { subst here. apply (run_sweepCertificate_failed rt m cert (world reached));
        assumption. }
    destruct (sweepCertificate_checks_and_renews rt m next (world fallback))
      as (rest & Hnext & Hrenews).
    exists (temporary_in rt (world renewal) (Domain cert) "renewal_failed").
    exists (rest ++ calls (run rt m (rangeCertificates after)
                               (world (run rt m (sweepCertificate next)
                                           (world fallback))))).
    split; [| split; [| split; [reflexivity |]]].
    + rewrite (run_checkAndRenewCertificates_at rt m _ _ _ _ _ Hlist). reflexivity.
    + rewrite (run_checkAndRenewCertificates_at rt m _ _ _ _ _ Hlist).
      cbn [calls]. fold reached here. rewrite Hhere. cbn [calls world].
      rewrite run_rangeCertificates_cons. cbv zeta. cbn [calls]. rewrite Hnext.
      subst fallback. rewrite run_deployTemporaryCertificate. cbn [calls].
      simpl. f_equal. rewrite <- !app_assoc. f_equal. simpl. f_equal.
      rewrite <- !app_assoc. reflexivity.
    + intros Hdue'. destruct (Hrenews Hdue') as [rest' ->]. eauto.
  - apply sweep_error_iff_list_error.
  - intros w w0 before after cert Hlist reached here beyond. split.
    + rewrite (run_checkAndRenewCertificates_at rt m _ _ _ _ _ Hlist). reflexivity.
    + apply sweepCertificate_checks_expiry.
  - apply run_MonitorCertificates_tick.
  - apply run_MonitorCertificates_list_error.
  - apply MonitorCertificates_returns_on_done.
Qed.

(** In memory.  With the authority down and the distributor refusing
    temporary certificates, a sweep over the two due certificates of
    api.example.com and b.example.com: the renewal and the fallback for
    the first both fail, the second is checked and renewed next, and the
    sweep returns [nil].  With a store that cannot be listed, each of two
    ticks runs a sweep that returns the listing error, and the loop is
    still running; a monitor whose context is done returns through that
    branch. *)
Lemma sweep_failures_are_contained_witness :
  (exists (tc : TemporaryCertificate) (rest' : list Call),
      returned (run (inmem.runtime inmem.all_down) (inmem.manager inmem.all_down)
                    checkAndRenewCertificates inmem.world2) = None /\
      calls (run (inmem.runtime inmem.all_down) (inmem.manager inmem.all_down)
                 checkAndRenewCertificates inmem.world2) =
        [storage_List; time_Now; acmeClient_RenewCertificate "api.example.com";
         time_Now; time_Now; time_Now; distributor_DeployTemporary tc;
         time_Now; acmeClient_RenewCertificate "b.example.com"] ++ rest') /\
  returned (run (inmem.runtime inmem.store_down) (inmem.manager inmem.store_down)
                checkAndRenewCertificates inmem.world0) = Some "database unreachable" /\
  run (inmem.runtime inmem.store_down) (inmem.manager inmem.store_down)
      (MonitorCertificates 2) (inmem.two_ticks inmem.world0) =
  {| returned := None;
     world := inmem.world0;
     calls := [select_Done_or_Tick; storage_List; select_Done_or_Tick; storage_List] |} /\
  (exists tail,
      calls (run (inmem.runtime inmem.authority_down) (inmem.manager inmem.authority_down)
                 checkAndRenewCertificates inmem.world0) =
      storage_List :: time_Now :: tail) /\
  (exists front,
      calls (run (inmem.runtime inmem.store_down) (inmem.manager inmem.store_down)
                 (MonitorCertificates 1) inmem.world0) =
      front ++ [select_Done_or_Tick; ctx_Err]).
Proof.
  destruct (sweep_failures_are_contained _
              (inmem.runtime inmem.all_down) (inmem.manager inmem.all_down))
    as (Hfailure & _).
  destruct (sweep_failures_are_contained _
              (inmem.runtime inmem.store_down) (inmem.manager inmem.store_down))
    as (_ & Hsweep & _ & Htick & Hlisterr & Hdone).
  destruct (sweep_failures_are_contained _
              (inmem.runtime inmem.authority_down) (inmem.manager inmem.authority_down))
    as (_ & _ & Hrest & _).
  split; [| split; [| split; [| split]]].
  - destruct (Hfailure inmem.world2 inmem.world2 [] [] inmem.api_cert inmem.b_cert
                (Some "no instance reachable"))
      as (tc & rest & Hret & Hcalls & _ & Hrenews).
    + vm_compute. reflexivity.
    + vm_compute. discriminate.
    + vm_compute. discriminate.
    + vm_compute. reflexivity.
    + destruct Hrenews as [rest' Hrest']; [vm_compute; discriminate |].
      exists tc, rest'. split; [exact Hret |].
      rewrite Hrest' in Hcalls. vm_compute in Hcalls. vm_compute. exact Hcalls.
  - rewrite Hsweep. reflexivity.
  - rewrite (Hlisterr 1%nat (inmem.two_ticks inmem.world0)
               (Runtime.Select (inmem.runtime inmem.store_down)
                               (inmem.two_ticks inmem.world0)).2
               "database unreachable" eq_refl eq_refl).
    vm_compute. reflexivity.
  - destruct (Hrest inmem.world0 inmem.world0 [] [] inmem.api_cert)
      as (Hcalls & tail & Htail).
    + vm_compute. reflexivity.
    + rewrite Hcalls, Htail. eexists. reflexivity.
  - apply (Hdone 1%nat inmem.world0 (Some "context canceled")).
    vm_compute. reflexivity.
Defined.

End certificate_monitor.

Module certificate_concurrency.
Import certificate certificate_run certificate_renewal certificate_temporary
       certificate_sweep.

Section OneGoroutine.
Context {W : Type} (rt : Runtime.t W) (m : Manager W).

(** The calls on the authority made for one certificate of the sweep:
    none, or one for its domain. *)
Lemma sweepCertificate_renewals (cert : Certificate) (w : W) :
  omap is_renewal (calls (run rt m (sweepCertificate cert) w)) = [] \/
  omap is_renewal (calls (run rt m (sweepCertificate cert) w)) = [Domain cert].
Proof.
  rewrite run_sweepCertificate. cbv zeta.
  destruct (time.Until (Expiry cert) (Runtime.Now rt w).1 <=? 30 * 24 * time.Hour);
    [| left; reflexivity].
  right.
  pose proof (renewCertificate_renewals rt m (Domain cert) (Runtime.Now rt w).2) as Hr.
  set (renewal := run rt m (renewCertificate (Domain cert)) (Runtime.Now rt w).2) in *.
  destruct (returned renewal).
  - cbn [calls]. rewrite run_deployTemporaryCertificate. cbn [calls].
    change (omap is_renewal (time_Now :: ?l)) with (omap is_renewal l).
    rewrite omap_app, Hr. reflexivity.
  - cbn [calls].
    change (omap is_renewal (time_Now :: ?l)) with (omap is_renewal l).
    exact Hr.
Qed.

Lemma rangeCertificates_renewals (certificates : list Certificate) :
  forall w : W,
    sublist (omap is_renewal (calls (run rt m (rangeCertificates certificates) w)))
            (Domain <$> certificates).
Proof.
  induction certificates as [| cert rest IH]; intros w.
  - constructor.
  - rewrite run_rangeCertificates_cons. cbv zeta. cbn [calls].
    rewrite omap_app, fmap_cons.
    destruct (sweepCertificate_renewals cert w) as [-> | ->]; simpl.
    + apply sublist_cons, IH.
    + apply sublist_skip, IH.
Qed.

Lemma pool_step_length {A : Type} (gs : list (Goroutine A)) (w : W) (i : nat) :
  length (pool_step rt m gs w i).1 = length gs.
Proof.
  unfold pool_step. destruct (gs !! i) as [g |]; [| reflexivity].
  destruct (go_step rt m g w). simpl. apply length_insert.
Qed.

Lemma pool_run_length {A : Type} (schedule : list nat) :
  forall (gs : list (Goroutine A)) (w : W),
    length (pool_run rt m schedule gs w).1 = length gs.
Proof.
  induction schedule as [| i rest IH]; intros gs w; simpl.
  - reflexivity.
  - pose proof (pool_step_length gs w i) as Hlen.
    destruct (pool_step rt m gs w i) as [gs' w']. rewrite IH. exact Hlen.
Qed.

(** A goroutine alone, moved twice per call, does what [run] says. *)
Lemma pool_run_alone {A : Type} (p : Prog A) :
  forall w : W,
    pool_run rt m (replicate (2 * length (calls (run rt m p w))) 0%nat)
             [Running p] w =
    ([Running (Ret (returned (run rt m p w)))], world (run rt m p w)).
Proof.
  induction p as [a | c k IH]; intros w.
  - reflexivity.
  - cbn [run calls length]. cbv zeta.
    replace (2 * S (length (calls (run rt m (k (dispatch rt m c w).1)
                                        (dispatch rt m c w).2))))%nat
      with (S (S (2 * length (calls (run rt m (k (dispatch rt m c w).1)
                                          (dispatch rt m c w).2)))))%nat by lia.
    cbn [replicate pool_run]. unfold pool_step at 1. cbn [lookup list_lookup go_step].
    cbn [insert list_insert]. unfold pool_step at 1. cbn [lookup list_lookup go_step].
    destruct (dispatch rt m c w) as [r w'] eqn:Hd. cbn [insert list_insert fst snd].
    apply IH.
Qed.

End OneGoroutine.

(** C9 (as the code has it).  Within one goroutine renewals do not
    overlap: a sweep calls the authority at most once for each listed
    certificate, one after the other in the order of the list, and a pool
    of one goroutine never has more than one renewal in flight, whatever
    the schedule.  Nothing in the manager records which domains are being
    renewed. *)
Theorem renewals_serialized_within_one_goroutine :
  forall (W : Type) (rt : Runtime.t W) (m : Manager W),
    (forall (certificates : list Certificate) (w : W),
        sublist (omap is_renewal
                   (calls (run rt m (rangeCertificates certificates) w)))
                (Domain <$> certificates)) /\
    (forall (A : Type) (g : Goroutine A) (schedule : list nat) (w : W)
            (domain : string),
        (in_flight domain (pool_run rt m schedule [g] w).1 <= 1)%nat).
Proof.
  intros W rt m. split.
  - apply rangeCertificates_renewals.
  - intros A g schedule w domain. unfold in_flight.
    etransitivity; [apply length_filter |].
    rewrite pool_run_length. reflexivity.
Qed.

(** C9 (as stated, refuted).  Two sweeps started side by side on a store
    whose one certificate is due: each lists the store, reads the clock
    and enters the authority's call for api.example.com before the other
    has its answer; two renewals for the domain are then in flight. *)
Lemma two_sweeps_renew_the_same_domain :
  in_flight "api.example.com"
    (pool_run (inmem.runtime inmem.authority_up) (inmem.manager inmem.authority_up)
              [0; 0; 0; 0; 0; 1; 1; 1; 1; 1]%nat
              [Running checkAndRenewCertificates; Running checkAndRenewCertificates]
              inmem.world0).1 = 2%nat.
Proof. vm_compute. reflexivity. Qed.

End certificate_concurrency.

Module queue_facts.
Import queue.

Lemma processJob_service (s : Service) (job : Job) : (processJob s job).1 = s.
Proof.
  unfold processJob.
  repeat (case_decide; [reflexivity |]). reflexivity.
Qed.

Lemma worker_round_head (s s' : Service) (job : Job) (out : list string) :
  worker_round s = Some (job, s', out) ->
  buf (jobs s) = job :: buf (jobs s') /\ cap (jobs s') = cap (jobs s).
Proof.
  unfold worker_round, recv.
  destruct (buf (jobs s)) as [| j rest] eqn:Hbuf; [discriminate |].
  pose proof (processJob_service
                {| jobs := {| buf := rest; cap := cap (jobs s) |};
                   workers := workers s |} j) as Hsame.
  destruct (processJob _ j) as [s1 out1]. simpl in Hsame. subst s1.
  intros [= <- <- <-]. split; reflexivity.
Qed.

Lemma worker_round_waits (s : Service) :
  buf (jobs s) = [] -> worker_round s = None.
Proof. unfold worker_round, recv. intros ->. reflexivity. Qed.

Section WithErrors.
Variable ErrQueueFull : error.

Lemma AddJob_room (s : Service) (job : Job) :
  (length (buf (jobs s)) < cap (jobs s))%nat ->
  AddJob ErrQueueFull s job =
  ({| jobs := {| buf := buf (jobs s) ++ [job]; cap := cap (jobs s) |};
      workers := workers s |}, None).
Proof. intros H. unfold AddJob, send. rewrite decide_True by exact H. reflexivity. Qed.

Lemma AddJob_full (s : Service) (job : Job) :
  (cap (jobs s) <= length (buf (jobs s)))%nat ->
  AddJob ErrQueueFull s job = (s, Some ErrQueueFull).
Proof. intros H. unfold AddJob, send. rewrite decide_False by lia. reflexivity. Qed.

(** What one step of a history keeps: the bound on the buffer, the
    capacity, and the order of the jobs. *)
Lemma step_invariant (p : Pool) (op : Op) :
  (length (buf (jobs (service p))) <= cap (jobs (service p)))%nat ->
  accepted p = dequeued p ++ buf (jobs (service p)) ->
  let p' := step ErrQueueFull p op in
  (length (buf (jobs (service p'))) <= cap (jobs (service p')))%nat /\
  cap (jobs (service p')) = cap (jobs (service p)) /\
  accepted p' = dequeued p' ++ buf (jobs (service p')).
Proof.
  intros Hlen Hfifo. destruct op as [job |]; simpl.
  - destruct (decide (length (buf (jobs (service p))) < cap (jobs (service p)))%nat)
      as [Hroom | Hfull].
    + rewrite (AddJob_room _ job Hroom). simpl.
      rewrite length_app. simpl. rewrite Hfifo, <- app_assoc.
      split; [lia | split; reflexivity].
    + rewrite (AddJob_full _ job) by lia. simpl. auto.
  - destruct (worker_round (service p)) as [[[job s'] out] |] eqn:Hround; simpl.
    + apply worker_round_head in Hround as [Hbuf Hcap].
      rewrite Hbuf in Hlen, Hfifo. simpl in Hlen.
      rewrite Hfifo, <- app_assoc. simpl.
      split; [lia | split; [exact Hcap | reflexivity]].
    + auto.
Qed.

Lemma exec_invariant (ops : list Op) :
  forall p : Pool,
    (length (buf (jobs (service p))) <= cap (jobs (service p)))%nat ->
    accepted p = dequeued p ++ buf (jobs (service p)) ->
    let p' := exec ErrQueueFull ops p in
    (length (buf (jobs (service p'))) <= cap (jobs (service p')))%nat /\
    cap (jobs (service p')) = cap (jobs (service p)) /\
    accepted p' = dequeued p' ++ buf (jobs (service p')).
Proof.
  induction ops as [| op ops IH]; intros p Hlen Hfifo; simpl.
  - auto.
  - destruct (step_invariant p op Hlen Hfifo) as (Hlen' & Hcap' & Hfifo').
    destruct (IH _ Hlen' Hfifo') as (H1 & H2 & H3).
    split; [exact H1 | split; [| exact H3]].
    etransitivity; [exact H2 | exact Hcap'].
Qed.

End WithErrors.

(** C5.  The queue made by [New] is empty with room for 1000 jobs.
    [AddJob] always returns: with room in the buffer it appends the job
    and returns [nil]; with the buffer full it leaves the queue as it is
    and returns [ErrQueueFull].  In every history of submissions and
    receives, from any queue within its capacity, the number of pending
    jobs stays within the capacity, which does not change; from [New]
    that is 1000. *)
Theorem AddJob_bounded_nonblocking :
  forall ErrQueueFull : error,
    (buf (jobs New) = [] /\ cap (jobs New) = 1000%nat) /\
    (forall (s : Service) (job : Job),
        (length (buf (jobs s)) < cap (jobs s))%nat ->
        AddJob ErrQueueFull s job =
        ({| jobs := {| buf := buf (jobs s) ++ [job]; cap := cap (jobs s) |};
            workers := workers s |}, None)) /\
    (forall (s : Service) (job : Job),
        (cap (jobs s) <= length (buf (jobs s)))%nat ->
        AddJob ErrQueueFull s job = (s, Some ErrQueueFull)) /\
    (forall (ops : list Op) (p : Pool),
        (length (buf (jobs (service p))) <= cap (jobs (service p)))%nat ->
        let p' := exec ErrQueueFull ops p in
        (length (buf (jobs (service p'))) <= cap (jobs (service p')))%nat /\
        cap (jobs (service p')) = cap (jobs (service p))) /\
    (forall ops : list Op,
        (length (buf (jobs (service (exec ErrQueueFull ops start)))) <= 1000)%nat).
Proof.
  intros E. split; [split; reflexivity |]. split; [apply AddJob_room |].
  split; [apply AddJob_full |]. split.
  - intros ops. induction ops as [| op ops IH]; intros p Hlen; simpl.
    + auto.
    + assert (Hstep : (length (buf (jobs (service (step E p op)))) <=
                       cap (jobs (service (step E p op))))%nat /\
                      cap (jobs (service (step E p op))) = cap (jobs (service p))).
      { destruct op as [job |]; simpl.
        - destruct (decide (length (buf (jobs (service p))) < cap (jobs (service p)))%nat)
            as [Hroom | Hfull].
          + rewrite (AddJob_room E _ job Hroom). simpl.
            rewrite length_app. simpl. split; [lia | reflexivity].
          + rewrite (AddJob_full E _ job) by lia. simpl. auto.
        - destruct (worker_round (service p)) as [[[job s'] out] |] eqn:Hround; simpl.
          + apply worker_round_head in Hround as [Hbuf Hcap].
            rewrite Hbuf in Hlen. simpl in Hlen. split; [lia | exact Hcap].
          + auto. }
      destruct Hstep as [Hlen' Hcap'].
      destruct (IH _ Hlen') as [H1 H2].
      split; [exact H1 | congruence].
  - intros ops.
    destruct (exec_invariant E ops start) as (Hlen & Hcap & _).
    + simpl. lia.
    + reflexivity.
    + simpl in Hcap. rewrite Hcap in Hlen. exact Hlen.
Qed.

(** A queue from [New] takes a job; after 1000 submissions it is full
    and the next one is refused. *)
Lemma AddJob_bounded_nonblocking_witness :
  let full := service (exec "queue is full" (replicate 1000 (Submit routine)) start) in
  (AddJob "queue is full" New urgent).2 = None /\
  AddJob "queue is full" full urgent = (full, Some "queue is full") /\
  length (buf (jobs full)) = 1000%nat.
Proof.
  intros full.
  destruct (AddJob_bounded_nonblocking "queue is full")
    as (_ & Hroom & Hfull & Hbound & _).
  split; [| split].
  - rewrite (Hroom New urgent); [reflexivity |]. simpl. lia.
  - apply (Hfull full urgent). vm_compute. reflexivity.
  - apply Nat.le_antisymm.
    + apply (Hbound (replicate 1000 (Submit routine)) start). simpl. lia.
    + vm_compute. reflexivity.
Defined.

(** C4 (as the code has it).  The queue is a channel: in every history
    the jobs received by the workers, followed by the jobs still pending,
    are the accepted jobs in the order of their submission, whatever their
    priorities; a worker always receives the job that has been pending
    longest.  Jobs of equal priority therefore leave in the order of
    submission, as do all others. *)
Theorem queue_is_first_in_first_out :
  forall ErrQueueFull : error,
    (forall ops : list Op,
        let p := exec ErrQueueFull ops start in
        accepted p = dequeued p ++ buf (jobs (service p))) /\
    (forall (s s' : Service) (job : Job) (out : list string),
        worker_round s = Some (job, s', out) ->
        buf (jobs s) = job :: buf (jobs s')).
Proof.
  intros E. split.
  - intros ops.
    destruct (exec_invariant E ops start) as (_ & _ & Hfifo).
    + simpl. lia.
    + reflexivity.
    + exact Hfifo.
  - intros s s' job out Hround.
    apply (worker_round_head _ _ _ _ Hround).
Qed.

Lemma queue_is_first_in_first_out_witness :
  let p := exec "queue is full" [Submit routine; Submit urgent; Work] start in
  dequeued p = [routine] /\ buf (jobs (service p)) = [urgent].
Proof.
  intros p.
  destruct (queue_is_first_in_first_out "queue is full") as [_ Hhead].
  assert (Hround : exists s' out,
             worker_round (service (exec "queue is full"
                                         [Submit routine; Submit urgent] start)) =
             Some (routine, s', out) /\ service p = s').
  { eexists _, _. vm_compute. split; reflexivity. }
  destruct Hround as (s' & out & Hround & Hs').
  pose proof (Hhead _ _ _ _ Hround) as Hbuf.
  split; [vm_compute; reflexivity |].
  rewrite Hs'. vm_compute in Hbuf. injection Hbuf as Hbuf. symmetry. exact Hbuf.
Defined.

(** C4 (as stated, refuted).  With a routine job (priority 1000)
    submitted before an urgent one (priority 1), the worker receives the
    routine job, which does not have the lowest priority value among the
    pending jobs. *)
Lemma worker_takes_oldest_not_most_urgent :
  let s := service (exec "queue is full" [Submit routine; Submit urgent] start) in
  buf (jobs s) = [routine; urgent] /\
  (fun r => r.1.1) <$> worker_round s = Some routine /\
  ~ lowest_priority routine (buf (jobs s)).
Proof.
  intros s. split; [vm_compute; reflexivity |]. split; [vm_compute; reflexivity |].
  intros H. assert (Hb : buf (jobs s) = [routine; urgent]) by (vm_compute; reflexivity).
  rewrite Hb in H. apply Forall_cons in H as [_ H]. apply Forall_cons in H as [H _].
  vm_compute in H. apply H. reflexivity.
Qed.

End queue_facts.

(** * Further properties of the code *)

Module certificate_more.
Import certificate certificate_run certificate_renewal certificate_temporary
       certificate_sweep.

Lemma filter_none {A : Type} (f : A -> bool) (l : list A) :
  Forall (fun x => f x = false) l -> filter (fun x => f x = true) l = [].
Proof.
  induction 1 as [| x l Hx _ IH]; [reflexivity |].
  rewrite filter_cons. rewrite decide_False by congruence. exact IH.
Qed.

Section OneManager.
Context {W : Type} (rt : Runtime.t W) (m : Manager W).

Lemma renewCertificate_in_sweep_body domain w :
  Forall in_sweep_body (calls (run rt m (renewCertificate domain) w)).
Proof.
  unfold renewCertificate. simpl.
  destruct (ACMEClient.RenewCertificate (acmeClient m) domain w) as [[c | e] w1];
    simpl; [| repeat constructor; discriminate].
  destruct (Validator.ValidateCertificate (validator m) c w1) as [[e |] w2];
    simpl; [repeat constructor; discriminate |].
  destruct (Storage.Store (storage m) c w2) as [[e |] w3];
    simpl; repeat constructor; discriminate.
Qed.

Lemma sweepCertificate_in_sweep_body cert w :
  Forall in_sweep_body (calls (run rt m (sweepCertificate cert) w)).
Proof.
  rewrite run_sweepCertificate. cbv zeta.
  destruct (time.Until (Expiry cert) (Runtime.Now rt w).1 <=? 30 * 24 * time.Hour);
    [| repeat constructor; discriminate].
  pose proof (renewCertificate_in_sweep_body (Domain cert) (Runtime.Now rt w).2) as Hr.
  destruct (returned (run rt m (renewCertificate (Domain cert)) (Runtime.Now rt w).2));
    cbn [calls].
  - rewrite run_deployTemporaryCertificate. cbn [calls].
    constructor; [repeat split; discriminate |].
    apply Forall_app. split; [exact Hr |]. repeat constructor; discriminate.
  - constructor; [repeat split; discriminate | exact Hr].
Qed.

Lemma rangeCertificates_in_sweep_body certificates :
  forall w, Forall in_sweep_body (calls (run rt m (rangeCertificates certificates) w)).
Proof.
  induction certificates as [| cert rest IH]; intros w.
  - constructor.
  - rewrite run_rangeCertificates_cons. cbv zeta. cbn [calls].
    apply Forall_app. split; [apply sweepCertificate_in_sweep_body | apply IH].
Qed.

(** A sweep lists the store once, at its start, and never waits. *)
Lemma sweep_lists_once w :
  filter (fun c => is_list c = true) (calls (run rt m checkAndRenewCertificates w)) =
    [storage_List] /\
  filter (fun c => is_select c = true) (calls (run rt m checkAndRenewCertificates w)) = [].
Proof.
  destruct (Storage.List (storage m) w) as [[certificates | e] w0] eqn:Hlist.
  - rewrite (run_checkAndRenewCertificates_listed rt m _ _ _ Hlist). cbv zeta. cbn [calls].
    pose proof (rangeCertificates_in_sweep_body certificates w0) as Hbody.
    rewrite !filter_cons. simpl.
    rewrite (filter_none is_list), (filter_none is_select); [split; reflexivity | |];
      eapply Forall_impl; try exact Hbody; intros c (H1 & H2 & _); assumption.
  - rewrite (run_checkAndRenewCertificates_failed rt m _ _ _ Hlist). split; reflexivity.
Qed.

Lemma none_due_run certificates :
  forall w, none_due rt certificates w = true ->
    calls (run rt m (rangeCertificates certificates) w) =
    replicate (length certificates) time_Now.
Proof.
  induction certificates as [| cert rest IH]; intros w Hnone.
  - reflexivity.
  - cbn [none_due] in Hnone. apply andb_prop in Hnone as [Hcert Hrest].
    apply negb_true_iff in Hcert.
    rewrite run_rangeCertificates_cons. cbv zeta.
    rewrite run_sweepCertificate. cbv zeta. rewrite Hcert. cbn [calls world].
    rewrite (IH _ Hrest). reflexivity.
Qed.

End OneManager.

(** X1.  [GetCertificateStatus] only reads: it calls [Retrieve] and, if
    that gave a certificate, [CheckExpiration] on it, nothing else.  An
    error of either call is returned as it is; otherwise the status carries
    the domain asked for, and the type and expiry of the certificate
    retrieved. *)
Theorem GetCertificateStatus_reads_only :
  forall (W : Type) (rt : Runtime.t W) (m : Manager W) (domain : string) (w : W),
    let o := run rt m (GetCertificateStatus domain) w in
    let got := Storage.Retrieve (storage m) domain w in
    Forall (fun c => writes_store c = false /\ remote_call c = false) (calls o) /\
    match got.1 with
    | Err e =>
        returned o = Err e /\ calls o = [storage_Retrieve domain] /\ world o = got.2
    | Ok cert =>
        let checked := Validator.CheckExpiration (validator m) cert got.2 in
        calls o = [storage_Retrieve domain; validator_CheckExpiration cert] /\
        world o = checked.2 /\
        match checked.1 with
        | Err e => returned o = Err e
        | Ok d =>
            exists st, returned o = Ok st /\
                       status_Domain st = domain /\
                       status_Type st = Type' cert /\
                       status_Expiry st = Expiry cert /\
                       TimeUntilExpiry st = d
        end
    end.
Proof.
  intros W rt m domain w o got. subst o got.
  unfold GetCertificateStatus. simpl.
  destruct (Storage.Retrieve (storage m) domain w) as [[cert | e] w1]; simpl.
  - destruct (Validator.CheckExpiration (validator m) cert w1) as [[d | e] w2]; simpl.
    + split; [repeat constructor |]. repeat split. eexists. repeat split.
    + split; [repeat constructor |]. repeat split.
  - split; [repeat constructor |]. repeat split.
Qed.

(** X2.  The sweep renews a certificate exactly when its status is not
    valid: with the time until expiry it reads, a certificate that
    [determineStatus] calls valid gets no call beyond the clock reading,
    and any other gets [RenewCertificate] on the authority next. *)
Theorem sweep_renews_unless_valid :
  forall (W : Type) (rt : Runtime.t W) (m : Manager W) (cert : Certificate) (w : W),
    let d := time.Until (Expiry cert) (Runtime.Now rt w).1 in
    let o := run rt m (sweepCertificate cert) w in
    (determineStatus d = "valid" ->
       calls o = [time_Now] /\ world o = (Runtime.Now rt w).2) /\
    (determineStatus d <> "valid" ->
       exists rest,
         calls o = time_Now :: acmeClient_RenewCertificate (Domain cert) :: rest).
Proof.
  intros W rt m cert w d o. subst o. rewrite run_sweepCertificate. cbv zeta. fold d.
  unfold determineStatus.
  rewrite certificate_status.seven_days, certificate_status.thirty_days.
  destruct (Z.leb_spec d 2592000000000000) as [Hdue | Hvalid].
  - split.
    + intros Hv.
      destruct (Z.leb_spec d 0); [discriminate Hv |].
      destruct (Z.leb_spec d 604800000000000); discriminate Hv.
    + intros _.
      destruct (renewCertificate_starts rt m (Domain cert) (Runtime.Now rt w).2)
        as [tail Htail].
      destruct (returned (run rt m (renewCertificate (Domain cert)) (Runtime.Now rt w).2));
        cbn [calls]; rewrite Htail; simpl; eauto.
  - split.
    + intros _. split; reflexivity.
    + intros Hv. exfalso. apply Hv.
      destruct (Z.leb_spec d 0); [lia |].
      destruct (Z.leb_spec d 604800000000000); [lia | reflexivity].
Qed.

Lemma sweep_renews_unless_valid_witness :
  calls (run (inmem.runtime inmem.authority_up) (inmem.manager inmem.authority_up)
             (sweepCertificate inmem.static_cert) inmem.world1) = [time_Now] /\
  exists rest,
    calls (run (inmem.runtime inmem.authority_up) (inmem.manager inmem.authority_up)
               (sweepCertificate inmem.api_cert) inmem.world0) =
    time_Now :: acmeClient_RenewCertificate "api.example.com" :: rest.
Proof.
  split.
  - apply (sweep_renews_unless_valid _ (inmem.runtime inmem.authority_up)
             (inmem.manager inmem.authority_up) inmem.static_cert inmem.world1).
    vm_compute. reflexivity.
  - apply (sweep_renews_unless_valid _ (inmem.runtime inmem.authority_up)
             (inmem.manager inmem.authority_up) inmem.api_cert inmem.world0).
    vm_compute. discriminate.
Defined.

End certificate_more.

Module certificate_outcomes.
Import certificate certificate_run certificate_renewal certificate_temporary
       certificate_sweep certificate_more.

(** X3.  [renewCertificate] returns [nil] only when every step went
    through: the authority returned a certificate, the validator accepted
    it, the store took it and the distributor deployed it, to an empty list
    of instances; these four calls, in this order, are all it made. *)
Theorem renewCertificate_nil_means_deployed :
  forall (W : Type) (rt : Runtime.t W) (m : Manager W) (domain : string) (w : W),
    let o := run rt m (renewCertificate domain) w in
    returned o = None ->
    exists (newCert : Certificate) (w1 w2 w3 : W),
      ACMEClient.RenewCertificate (acmeClient m) domain w = (Ok newCert, w1) /\
      Validator.ValidateCertificate (validator m) newCert w1 = (None, w2) /\
      Storage.Store (storage m) newCert w2 = (None, w3) /\
      Distributor.Deploy (distributor m) newCert [] w3 = (None, world o) /\
      calls o = [acmeClient_RenewCertificate domain;
                 validator_ValidateCertificate newCert;
                 storage_Store newCert;
                 distributor_Deploy newCert []].
Proof.
  intros W rt m domain w o Hnil. subst o.
  destruct (ACMEClient.RenewCertificate (acmeClient m) domain w)
    as [[newCert | e] w1] eqn:Hrenew.
  - destruct (Validator.ValidateCertificate (validator m) newCert w1)
      as [[e |] w2] eqn:Hvalid.
    + rewrite (renewCertificate_validation_error rt m _ _ _ _ _ _ Hrenew Hvalid) in Hnil.
      discriminate Hnil.
    + destruct (Storage.Store (storage m) newCert w2) as [[e |] w3] eqn:Hstore.
      * rewrite (renewCertificate_store_error rt m _ _ _ _ _ _ _ Hrenew Hvalid Hstore)
          in Hnil.
        discriminate Hnil.
      * rewrite (renewCertificate_stored rt m _ _ _ _ _ _ Hrenew Hvalid Hstore) in Hnil.
        rewrite (renewCertificate_stored rt m _ _ _ _ _ _ Hrenew Hvalid Hstore).
        cbn [returned world calls] in *.
        exists newCert, w1, w2, w3.
        split; [reflexivity |]. split; [exact Hvalid |]. split; [exact Hstore |].
        split; [| reflexivity].
        destruct (Distributor.Deploy (distributor m) newCert [] w3) as [r w4].
        simpl in *. subst r. reflexivity.
  - rewrite (renewCertificate_authority_error rt m _ _ _ _ Hrenew) in Hnil.
    discriminate Hnil.
Qed.

Lemma renewCertificate_nil_means_deployed_witness :
  exists newCert : Certificate,
    calls (run (inmem.runtime inmem.authority_up) (inmem.manager inmem.authority_up)
               (renewCertificate "api.example.com") inmem.world0) =
    [acmeClient_RenewCertificate "api.example.com";
     validator_ValidateCertificate newCert;
     storage_Store newCert;
     distributor_Deploy newCert []].
Proof.
  destruct (renewCertificate_nil_means_deployed _
              (inmem.runtime inmem.authority_up) (inmem.manager inmem.authority_up)
              "api.example.com" inmem.world0)
    as (newCert & _ & _ & _ & _ & _ & _ & _ & Hcalls).
  - vm_compute. reflexivity.
  - exists newCert. exact Hcalls.
Defined.

(** X4.  A deployment that fails after the renewed certificate has been
    stored is not rolled back: the sweep's only write to the store for the
    certificate is the [Store] of the renewed one, and it goes on to
    deploy a temporary certificate for the domain. *)
Theorem deploy_failure_keeps_store_and_falls_back :
  forall (W : Type) (rt : Runtime.t W) (m : Manager W) (cert newCert : Certificate)
         (w w1 w2 w3 w4 : W) (e : error),
    let reading := Runtime.Now rt w in
    time.Until (Expiry cert) reading.1 <= 30 * 24 * time.Hour ->
    ACMEClient.RenewCertificate (acmeClient m) (Domain cert) reading.2 = (Ok newCert, w1) ->
    Validator.ValidateCertificate (validator m) newCert w1 = (None, w2) ->
    Storage.Store (storage m) newCert w2 = (None, w3) ->
    Distributor.Deploy (distributor m) newCert [] w3 = (Some e, w4) ->
    let o := run rt m (sweepCertificate cert) w in
    exists tc : TemporaryCertificate,
      calls o = [time_Now;
                 acmeClient_RenewCertificate (Domain cert);
                 validator_ValidateCertificate newCert;
                 storage_Store newCert;
                 distributor_Deploy newCert [];
                 time_Now; time_Now; time_Now;
                 distributor_DeployTemporary tc] /\
      Domain (Certificate' tc) = Domain cert /\
      filter (fun c => writes_store c = true) (calls o) = [storage_Store newCert].
Proof.
  intros W rt m cert newCert w w1 w2 w3 w4 e reading Hdue Hrenew Hvalid Hstore Hdeploy o.
  assert (Hcalls : calls o =
            [time_Now;
             acmeClient_RenewCertificate (Domain cert);
             validator_ValidateCertificate newCert;
             storage_Store newCert;
             distributor_Deploy newCert [];
             time_Now; time_Now; time_Now;
             distributor_DeployTemporary
               (temporary_in rt w4 (Domain cert) "renewal_failed")]).
  { subst o. rewrite run_sweepCertificate. cbv zeta. fold reading.
    apply Z.leb_le in Hdue. rewrite Hdue.
    rewrite (renewCertificate_stored rt m _ _ _ _ _ _ Hrenew Hvalid Hstore).
    rewrite Hdeploy. cbn [returned world calls fst snd].
    rewrite run_deployTemporaryCertificate. reflexivity. }
  exists (temporary_in rt w4 (Domain cert) "renewal_failed").
  split; [exact Hcalls |]. split; [reflexivity |].
  rewrite Hcalls. reflexivity.
Qed.

(** In memory, with a distributor that is down: after the sweep the store
    holds the renewed certificate of api.example.com, and a temporary one
    has been handed to the distributor. *)
Lemma deploy_failure_keeps_store_and_falls_back_witness :
  let o := run (inmem.runtime inmem.deploy_down) (inmem.manager inmem.deploy_down)
               (sweepCertificate inmem.api_cert) inmem.world0 in
  (exists tc, last (calls o) = Some (distributor_DeployTemporary tc)) /\
  inmem.certs (world o) !! "api.example.com" =
    Some (inmem.cert_for "api.example.com" inmem.now0 (inmem.now0 + 90 * inmem.day)).
Proof.
  intros o.
  destruct (deploy_failure_keeps_store_and_falls_back _
              (inmem.runtime inmem.deploy_down) (inmem.manager inmem.deploy_down)
              inmem.api_cert
              (inmem.cert_for "api.example.com" inmem.now0 (inmem.now0 + 90 * inmem.day))
              inmem.world0
              (Runtime.Now (inmem.runtime inmem.deploy_down) inmem.world0).2
              (Runtime.Now (inmem.runtime inmem.deploy_down) inmem.world0).2
              (inmem.set_certs
                 (Runtime.Now (inmem.runtime inmem.deploy_down) inmem.world0).2
                 (<["api.example.com" :=
                      inmem.cert_for "api.example.com" inmem.now0
                                     (inmem.now0 + 90 * inmem.day)]>
                    (inmem.certs inmem.world0)))
              (inmem.set_certs
                 (Runtime.Now (inmem.runtime inmem.deploy_down) inmem.world0).2
                 (<["api.example.com" :=
                      inmem.cert_for "api.example.com" inmem.now0
                                     (inmem.now0 + 90 * inmem.day)]>
                    (inmem.certs inmem.world0)))
              "no instance reachable")
    as (tc & Hcalls & _ & _).
  - vm_compute. discriminate.
  - vm_compute. reflexivity.
  - vm_compute. reflexivity.
  - vm_compute. reflexivity.
  - vm_compute. reflexivity.
  - split.
    + exists tc. fold o in Hcalls. rewrite Hcalls. reflexivity.
    + vm_compute. reflexivity.
Defined.

End certificate_outcomes.

Module certificate_rounds.
Import certificate certificate_run certificate_sweep certificate_monitor
       certificate_more.

(** X5.  A sweep that finds no listed certificate due (each has more than
    30 days left when the sweep reads the clock for it) returns [nil] and
    makes no call beyond the listing and one clock reading per
    certificate: nothing is renewed, stored or deployed. *)
Theorem sweep_without_due_certificates :
  forall (W : Type) (rt : Runtime.t W) (m : Manager W) (w w0 : W)
         (certificates : list Certificate),
    Storage.List (storage m) w = (Ok certificates, w0) ->
    none_due rt certificates w0 = true ->
    let o := run rt m checkAndRenewCertificates w in
    returned o = None /\
    calls o = storage_List :: replicate (length certificates) time_Now /\
    Forall (fun c => writes_store c = false /\ remote_call c = false) (calls o).
Proof.
  intros W rt m w w0 certificates Hlist Hnone o.
  assert (Hcalls : calls o = storage_List :: replicate (length certificates) time_Now).
  { subst o. rewrite (run_checkAndRenewCertificates_listed rt m _ _ _ Hlist).
    cbv zeta. cbn [calls]. rewrite (none_due_run rt m _ _ Hnone). reflexivity. }
  split; [| split; [exact Hcalls |]].
  - subst o. rewrite (run_checkAndRenewCertificates_listed rt m _ _ _ Hlist). reflexivity.
  - rewrite Hcalls. constructor; [split; reflexivity |].
    apply Forall_replicate. split; reflexivity.
Qed.

Lemma sweep_without_due_certificates_witness :
  calls (run (inmem.runtime inmem.authority_up) (inmem.manager inmem.authority_up)
             checkAndRenewCertificates inmem.world1) = [storage_List; time_Now].
Proof.
  apply (sweep_without_due_certificates _
           (inmem.runtime inmem.authority_up) (inmem.manager inmem.authority_up)
           inmem.world1 inmem.world1 [inmem.static_cert]).
  - vm_compute. reflexivity.
  - vm_compute. reflexivity.
Defined.

Section Counting.
Context {W : Type} (rt : Runtime.t W) (m : Manager W).

Lemma monitor_counts (rounds : nat) :
  forall w : W,
    let o := run rt m (MonitorCertificates rounds) w in
    selects (calls o) =
      (sweeps (calls o) + match returned o with Some _ => 1 | None => 0 end)%nat /\
    (sweeps (calls o) <= rounds)%nat /\
    (returned o = None -> sweeps (calls o) = rounds).
Proof.
  unfold selects, sweeps.
  induction rounds as [| rounds IH]; intros w.
  - simpl. repeat split; lia.
  - destruct (Runtime.Select rt w).1 eqn:Hsel.
    + rewrite (run_MonitorCertificates_done _ _ _ _ Hsel). simpl.
      repeat split; [lia | discriminate].
    + rewrite (run_MonitorCertificates_tick _ _ _ _ Hsel). cbv zeta.
      cbn [returned calls].
      destruct (sweep_lists_once rt m (Runtime.Select rt w).2) as [Hl Hs].
      destruct (IH (world (run rt m checkAndRenewCertificates (Runtime.Select rt w).2)))
        as (H1 & H2 & H3).
      set (swept := run rt m checkAndRenewCertificates (Runtime.Select rt w).2) in *.
      set (next := run rt m (MonitorCertificates rounds) (world swept)) in *.
      rewrite !filter_cons, !filter_app, Hl, Hs. simpl.
      rewrite ?length_app. simpl.
      repeat split; [lia | lia |]. intros Hnone. rewrite (H3 Hnone). reflexivity.
Qed.

End Counting.

(** X6.  In the monitor loop every tick runs one sweep and nothing else
    does: the number of rounds (waits on the [select]) is the number of
    sweeps, plus one for the round that saw the context done if the loop
    has returned.  While the loop has not returned, every round so far has
    run a sweep. *)
Theorem monitor_one_sweep_per_tick :
  forall (W : Type) (rt : Runtime.t W) (m : Manager W) (rounds : nat) (w : W),
    let o := run rt m (MonitorCertificates rounds) w in
    selects (calls o) =
      (sweeps (calls o) + match returned o with Some _ => 1 | None => 0 end)%nat /\
    (sweeps (calls o) <= rounds)%nat /\
    (returned o = None -> sweeps (calls o) = rounds).
Proof. intros W rt m rounds w. apply monitor_counts. Qed.

(** In memory, with two ticks before the context is done: two rounds run
    two sweeps; five rounds still run two sweeps, in three waits. *)
Lemma monitor_one_sweep_per_tick_witness :
  sweeps (calls (run (inmem.runtime inmem.authority_up) (inmem.manager inmem.authority_up)
                     (MonitorCertificates 2) inmem.world1)) = 2%nat /\
  selects (calls (run (inmem.runtime inmem.authority_up) (inmem.manager inmem.authority_up)
                      (MonitorCertificates 5) inmem.world1)) = 3%nat.
Proof.
  split.
  - apply (monitor_one_sweep_per_tick _
             (inmem.runtime inmem.authority_up) (inmem.manager inmem.authority_up)
             2%nat inmem.world1).
    vm_compute. reflexivity.
  - destruct (monitor_one_sweep_per_tick _
                (inmem.runtime inmem.authority_up) (inmem.manager inmem.authority_up)
                5%nat inmem.world1) as (Hcount & _ & _).
    rewrite Hcount. vm_compute. reflexivity.
Defined.

End certificate_rounds.

Module queue_more.
Import queue queue_facts.

Lemma processJob_log_any_service (s1 s2 : Service) (job : Job) :
  (processJob s1 job).2 = (processJob s2 job).2.
Proof.
  unfold processJob.
  repeat (case_decide; [reflexivity |]). reflexivity.
Qed.

Section WithErrors.
Variable ErrQueueFull : error.

Lemma exec_app (ops1 ops2 : list Op) (p : Pool) :
  exec ErrQueueFull (ops1 ++ ops2) p = exec ErrQueueFull ops2 (exec ErrQueueFull ops1 p).
Proof. unfold exec. apply foldl_app. Qed.

Lemma step_submit_room (p : Pool) (job : Job) :
  (length (buf (jobs (service p))) < cap (jobs (service p)))%nat ->
  step ErrQueueFull p (Submit job) =
  {| service := {| jobs := {| buf := buf (jobs (service p)) ++ [job];
                              cap := cap (jobs (service p)) |};
                   workers := workers (service p) |};
     accepted := accepted p ++ [job];
     dequeued := dequeued p |}.
Proof. intros H. simpl. rewrite (AddJob_room ErrQueueFull _ job H). reflexivity. Qed.

Lemma step_submit_full (p : Pool) (job : Job) :
  (cap (jobs (service p)) <= length (buf (jobs (service p))))%nat ->
  step ErrQueueFull p (Submit job) =
  {| service := service p; accepted := accepted p; dequeued := dequeued p |}.
Proof. intros H. simpl. rewrite (AddJob_full ErrQueueFull _ job H). reflexivity. Qed.

(** Submitting a batch: the jobs that fit are accepted, in order. *)
Lemma exec_submit_batch (js : list Job) :
  forall p : Pool,
    let room := (cap (jobs (service p)) - length (buf (jobs (service p))))%nat in
    let p' := exec ErrQueueFull (Submit <$> js) p in
    buf (jobs (service p')) = buf (jobs (service p)) ++ take room js /\
    cap (jobs (service p')) = cap (jobs (service p)) /\
    accepted p' = accepted p ++ take room js /\
    dequeued p' = dequeued p.
Proof.
  induction js as [| job js IH]; intros p room p'.
  - subst p'. simpl. rewrite take_nil, !app_nil_r. auto.
  - subst p'.
    change (exec ErrQueueFull (Submit <$> job :: js) p)
      with (exec ErrQueueFull (Submit <$> js) (step ErrQueueFull p (Submit job))).
    destruct (decide (length (buf (jobs (service p))) < cap (jobs (service p)))%nat)
      as [Hroom | Hfull].
    + rewrite (step_submit_room p job Hroom).
      match goal with
      | |- context [exec _ _ ?q] => destruct (IH q) as (H1 & H2 & H3 & H4)
      end.
      rewrite H1, H2, H3, H4. cbn [service jobs buf cap accepted dequeued].
      rewrite length_app. cbn [length].
      destruct room as [| r] eqn:Hr; [subst room; lia |].
      replace (cap (jobs (service p)) - (length (buf (jobs (service p))) + 1))%nat
        with r by (subst room; lia).
      cbn [take]. rewrite <- !app_assoc. auto.
    + rewrite (step_submit_full p job) by lia.
      match goal with
      | |- context [exec _ _ ?q] => destruct (IH q) as (H1 & H2 & H3 & H4)
      end.
      rewrite H1, H2, H3, H4. cbn [service jobs buf cap accepted dequeued].
      replace room with 0%nat by (subst room; lia).
      replace (cap (jobs (service p)) - length (buf (jobs (service p))))%nat
        with 0%nat by lia.
      rewrite !take_0. auto.
Qed.

(** Workers taking [n] turns: the [n] oldest pending jobs leave, in order. *)
Lemma exec_work (n : nat) :
  forall p : Pool,
    let p' := exec ErrQueueFull (replicate n Work) p in
    buf (jobs (service p')) = drop n (buf (jobs (service p))) /\
    cap (jobs (service p')) = cap (jobs (service p)) /\
    accepted p' = accepted p /\
    dequeued p' = dequeued p ++ take n (buf (jobs (service p))).
Proof.
  induction n as [| n IH]; intros p p'.
  - subst p'. simpl. rewrite app_nil_r. auto.
  - subst p'.
    change (exec ErrQueueFull (replicate (S n) Work) p)
      with (exec ErrQueueFull (replicate n Work) (step ErrQueueFull p Work)).
    destruct (IH (step ErrQueueFull p Work)) as (H1 & H2 & H3 & H4).
    rewrite H1, H2, H3, H4. clear H1 H2 H3 H4. cbn [step].
    destruct (worker_round (service p)) as [[[job s'] out] |] eqn:Hround.
    + pose proof (worker_round_head _ _ _ _ Hround) as [Hbuf Hcap].
      cbn [service accepted dequeued]. rewrite Hbuf. cbn [drop take].
      rewrite <- app_assoc. auto.
    + assert (Hempty : buf (jobs (service p)) = []).
      { unfold worker_round, recv in Hround.
        destruct (buf (jobs (service p))); [reflexivity |].
        destruct (processJob _ _); discriminate. }
      rewrite Hempty. rewrite !drop_nil, !take_nil. auto.
Qed.

End WithErrors.

(** X7.  Round trip through an empty queue: a job submitted to a queue
    with nothing pending and room for at least one job is accepted, is the
    job the next worker round receives, and the queue is then as it was
    before the submission. *)
Theorem AddJob_then_worker_round :
  forall (ErrQueueFull : error) (s : Service) (job : Job),
    buf (jobs s) = [] ->
    (0 < cap (jobs s))%nat ->
    (AddJob ErrQueueFull s job).2 = None /\
    worker_round (AddJob ErrQueueFull s job).1 = Some (job, s, (processJob s job).2).
Proof.
  intros E s job Hempty Hcap.
  rewrite (AddJob_room E s job) by (rewrite Hempty; simpl; lia).
  split; [reflexivity |].
  destruct s as [[b c] k]. simpl in *. subst b.
  unfold worker_round, recv. simpl.
  pose proof (processJob_service {| jobs := {| buf := []; cap := c |}; workers := k |} job)
    as Hsame.
  destruct (processJob _ job) as [s' out]. simpl in *. subst s'. reflexivity.
Qed.

Lemma AddJob_then_worker_round_witness :
  worker_round (AddJob "queue is full" New urgent).1 =
  Some (urgent, New, (processJob New urgent).2).
Proof.
  apply (AddJob_then_worker_round "queue is full" New urgent).
  - reflexivity.
  - simpl. lia.
Defined.

(** X8.  A batch of submissions to a new queue followed by [n] worker
    rounds: the first 1000 jobs of the batch are accepted and the rest
    refused; the workers have received the first [n] of the accepted jobs,
    in the order of submission, each once, and the others are still
    pending. *)
Theorem submit_batch_then_work :
  forall (ErrQueueFull : error) (js : list Job) (n : nat),
    let p := exec ErrQueueFull ((Submit <$> js) ++ replicate n Work) start in
    accepted p = take 1000 js /\
    dequeued p = take n (take 1000 js) /\
    buf (jobs (service p)) = drop n (take 1000 js).
Proof.
  intros E js n p. subst p. rewrite exec_app.
  destruct (exec_submit_batch E js start) as (H1 & H2 & H3 & H4).
  destruct (exec_work E n (exec E (Submit <$> js) start)) as (K1 & K2 & K3 & K4).
  rewrite K1, K3, K4, H1, H3, H4. simpl. auto.
Qed.

End queue_more.

Module queue_workers.
Import queue queue_facts queue_more.

(** X9.  [processJob] logs two lines and leaves the queue alone: first the
    line naming the job and its type, then one line of the handler; the
    second line is the complaint about an unknown job type exactly when the
    type is none of the seven job types, and the job is then dropped. *)
Theorem processJob_logs_and_drops_unknown :
  forall (s : Service) (job : Job),
    exists second : string,
      processJob s job =
        (s, ["Processing job " +:+ ID job +:+ " of type " +:+ Type' job; second]) /\
      (second = "Unknown job type: " +:+ Type' job <-> Type' job ∉ known_types).
Proof.
  intros s job. unfold processJob, known_types.
  repeat (let Htype := fresh "Htype" in
          case_decide as Htype;
          [eexists; split; [reflexivity |];
           split; [intros Heq; simpl in Heq; discriminate Heq
                  | intros Hnot; exfalso; apply Hnot; rewrite Htype;
                    repeat (first [apply list_elem_of_here | apply list_elem_of_further])] |]).
  eexists. split; [reflexivity |]. split; [| reflexivity].
  intros _ Hin. repeat (apply elem_of_cons in Hin as [Hin | Hin]; [congruence |]).
  apply elem_of_nil in Hin. exact Hin.
Qed.

Lemma processJob_logs_and_drops_unknown_witness :
  (processJob New (job_of "j1" "reindex" 5 0 0)).2 =
    ["Processing job j1 of type reindex"; "Unknown job type: reindex"] /\
  (processJob New urgent).2 =
    ["Processing job renew-1 of type certificate_renewal";
     "Processing certificate renewal job renew-1"].
Proof.
  split.
  - destruct (processJob_logs_and_drops_unknown New (job_of "j1" "reindex" 5 0 0))
      as (second & Hrun & Hunknown).
    assert (Hsecond : second = "Unknown job type: reindex").
    { apply Hunknown. vm_compute. intros Hin.
      repeat (apply elem_of_cons in Hin as [Hin | Hin]; [discriminate Hin |]).
      apply elem_of_nil in Hin. exact Hin. }
    rewrite Hrun, Hsecond. reflexivity.
  - vm_compute. reflexivity.
Defined.

Lemma worker_loop_receives (id : Z) (n : nat) :
  forall (s : Service) (rest : list WorkerCase),
    (n <= length (buf (jobs s)))%nat ->
    worker_loop id (replicate n jobsReceive ++ rest) s =
    let s' := {| jobs := {| buf := drop n (buf (jobs s)); cap := cap (jobs s) |};
                 workers := workers s |} in
    let '(s'', out, stopped) := worker_loop id rest s' in
    (s'', concat ((fun job => (processJob s job).2) <$> take n (buf (jobs s))) ++ out,
     stopped).
Proof.
  induction n as [| n IH]; intros s rest Hn.
  - simpl. rewrite drop_0. destruct s as [[b c] k]. simpl.
    destruct (worker_loop id rest _) as [[s'' out] stopped]. reflexivity.
  - destruct s as [[b c] k]. simpl in Hn.
    destruct b as [| job b]; [simpl in Hn; lia |].
    cbn [replicate app worker_loop]. unfold worker_round, recv. cbn [jobs buf cap workers].
    pose proof (processJob_service
                  {| jobs := {| buf := b; cap := c |}; workers := k |} job) as Hsame.
    pose proof (processJob_log_any_service
                  {| jobs := {| buf := b; cap := c |}; workers := k |}
                  {| jobs := {| buf := job :: b; cap := c |}; workers := k |} job) as Hlog.
    destruct (processJob {| jobs := {| buf := b; cap := c |}; workers := k |} job)
      as [s1 out1]. simpl in Hsame, Hlog. subst s1 out1.
    rewrite IH by (simpl in *; lia). cbv zeta. cbn [jobs buf cap workers drop take].
    destruct (worker_loop id rest _) as [[s'' out] stopped].
    rewrite fmap_cons, concat_cons, <- app_assoc.
    rewrite (list_fmap_ext
               (fun job0 => (processJob {| jobs := {| buf := b; cap := c |};
                                           workers := k |} job0).2)
               (fun job0 => (processJob {| jobs := {| buf := job :: b; cap := c |};
                                           workers := k |} job0).2)
               (take n b));
      [reflexivity |].
    intros i j Hj. apply processJob_log_any_service.
Qed.



(** X18.  [processJob] hands the job to the handler of its type, once, and
    does nothing else: for each of the seven job types the result is what
    the handler of that type returns, with the line naming the job put in
    front of what the handler logs.  Only the id and the type of the job
    matter: jobs that agree on these are processed alike, whatever their
    priority, retry count, maximum of retries, payload and creation time. *)
Theorem processJob_hands_job_to_its_handler :
  forall (s : Service) (job : Job),
    let header := "Processing job " +:+ ID job +:+ " of type " +:+ Type' job in
    (Type' job = JobTypeCertificateRenewal ->
     processJob s job =
       ((processCertificateRenewal s job).1,
        header :: (processCertificateRenewal s job).2)) /\
    (Type' job = JobTypeCertificateValidation ->
     processJob s job =
       ((processCertificateValidation s job).1,
        header :: (processCertificateValidation s job).2)) /\
    (Type' job = JobTypeConfigUpdate ->
     processJob s job =
       ((processConfigUpdate s job).1, header :: (processConfigUpdate s job).2)) /\
    (Type' job = JobTypeLogProcessing ->
     processJob s job =
       ((processLogProcessing s job).1, header :: (processLogProcessing s job).2)) /\
    (Type' job = JobTypeAnalytics ->
     processJob s job =
       ((processAnalytics s job).1, header :: (processAnalytics s job).2)) /\
    (Type' job = JobTypeDatabaseCleanup ->
     processJob s job =
       ((processDatabaseCleanup s job).1,
        header :: (processDatabaseCleanup s job).2)) /\
    (Type' job = JobTypeIntegration ->
     processJob s job =
       ((processIntegration s job).1, header :: (processIntegration s job).2)) /\
    (forall job' : Job,
        ID job' = ID job -> Type' job' = Type' job ->
        processJob s job' = processJob s job).
Proof.
  intros s job header. subst header.
  repeat split;
    try (intros Htype; unfold processJob; rewrite Htype;
         repeat (let Hd := fresh "Hd" in
                 case_decide as Hd; [try discriminate Hd; reflexivity |]);
         exfalso; congruence).
  intros job' Hid Htype. unfold processJob.
  unfold processCertificateRenewal, processCertificateValidation, processConfigUpdate,
    processLogProcessing, processAnalytics, processDatabaseCleanup, processIntegration.
  rewrite Hid, Htype. reflexivity.
Qed.

(** A cleanup job goes to the cleanup handler; the same job with another
    priority and retry count is processed alike. *)
Lemma processJob_hands_job_to_its_handler_witness :
  processJob New routine =
    (New, ["Processing job cleanup-1 of type database_cleanup";
           "Processing database cleanup job cleanup-1"]) /\
  processJob New (job_of "cleanup-1" JobTypeDatabaseCleanup 1 7 3) =
    processJob New routine.
Proof.
  destruct (processJob_hands_job_to_its_handler New routine)
    as (_ & _ & _ & _ & _ & Hcleanup & _ & Hsame).
  split.
  - rewrite Hcleanup; reflexivity.
  - apply Hsame; reflexivity.
Defined.

End queue_workers.

Module database_facts.
Import program database.

Section Migrator.
Context {W : Type} (handle : forall c : Call, W -> Resp c * W).

Lemma run_rangeMigrations_cons (migration : Migration) (rest : list Migration) (w : W) :
  run handle (rangeMigrations (migration :: rest)) w =
  let answer := handle (migrator_ApplyMigration migration) w in
  match answer.1 with
  | Some e =>
      {| returned := Some e; world := answer.2;
         calls := [migrator_ApplyMigration migration] |}
  | None =>
      let o := run handle (rangeMigrations rest) answer.2 in
      {| returned := returned o; world := world o;
         calls := migrator_ApplyMigration migration :: calls o |}
  end.
Proof.
  simpl. destruct (handle (migrator_ApplyMigration migration) w) as [[e |] w1];
    reflexivity.
Qed.

(** The loop applies a leading part of the list, in order; if it returns
    [nil] it has applied the whole list. *)
Lemma rangeMigrations_prefix (migrations : list Migration) :
  forall w : W,
    let o := run handle (rangeMigrations migrations) w in
    exists done : list Migration,
      done `prefix_of` migrations /\
      calls o = migrator_ApplyMigration <$> done /\
      (returned o = None -> done = migrations).
Proof.
  induction migrations as [| migration rest IH]; intros w o.
  - exists []. split; [apply prefix_nil | split; reflexivity].
  - subst o. rewrite run_rangeMigrations_cons. cbv zeta.
    destruct (handle (migrator_ApplyMigration migration) w) as [[e |] w1]; cbn [fst snd].
    + exists [migration]. split; [| split; [reflexivity | discriminate]].
      apply prefix_cons, prefix_nil.
    + destruct (IH w1) as (done & Hprefix & Hcalls & Hall).
      exists (migration :: done). cbn [returned calls]. split; [| split].
      * apply prefix_cons, Hprefix.
      * rewrite Hcalls. reflexivity.
      * intros Hnil. rewrite (Hall Hnil). reflexivity.
Qed.

Lemma rangeMigrations_all_applied (migrations : list Migration) (w : W) :
  returned (run handle (rangeMigrations migrations) w) = None ->
  calls (run handle (rangeMigrations migrations) w) =
  migrator_ApplyMigration <$> migrations.
Proof.
  intros Hnil.
  destruct (rangeMigrations_prefix migrations w) as (done & _ & Hcalls & Hall).
  rewrite Hcalls, (Hall Hnil). reflexivity.
Qed.

Lemma run_rangeMigrations_app (before rest : list Migration) :
  forall w : W,
    returned (run handle (rangeMigrations before) w) = None ->
    run handle (rangeMigrations (before ++ rest)) w =
    let o := run handle (rangeMigrations before) w in
    let o' := run handle (rangeMigrations rest) (world o) in
    {| returned := returned o'; world := world o'; calls := calls o ++ calls o' |}.
Proof.
  induction before as [| migration before IH]; intros w Hnil.
  - simpl. destruct (run handle (rangeMigrations rest) w); reflexivity.
  - change ((migration :: before) ++ rest) with (migration :: (before ++ rest)).
    rewrite run_rangeMigrations_cons in Hnil. rewrite !run_rangeMigrations_cons.
    cbv zeta in *.
    destruct (handle (migrator_ApplyMigration migration) w) as [[e |] w1];
      cbn [fst snd] in *; [discriminate Hnil |].
    cbn [returned] in Hnil. rewrite (IH w1 Hnil). reflexivity.
Qed.

End Migrator.

(** X15.  [ApplyMigrations] asks for the pending migrations once and, if
    that succeeds, applies a leading part of them in their order, one call
    each; it never rolls back.  When it returns [nil] every pending
    migration has been applied; an error of the listing is returned before
    anything is applied. *)
Theorem ApplyMigrations_applies_in_order :
  forall (W : Type) (handle : forall c : Call, W -> Resp c * W) (w : W),
    let o := run handle ApplyMigrations w in
    let got := handle migrator_GetPendingMigrations w in
    match got.1 with
    | Err e => returned o = Some e /\ calls o = [migrator_GetPendingMigrations]
    | Ok migrations =>
        exists done : list Migration,
          done `prefix_of` migrations /\
          calls o = migrator_GetPendingMigrations :: (migrator_ApplyMigration <$> done) /\
          (returned o = None -> done = migrations)
    end.
Proof.
  intros W handle w o got. subst o got. unfold ApplyMigrations. simpl.
  destruct (handle migrator_GetPendingMigrations w) as [[migrations | e] w0]; simpl.
  - destruct (rangeMigrations_prefix handle migrations w0) as (done & H1 & H2 & H3).
    exists done. rewrite H2. auto.
  - split; reflexivity.
Qed.

(** With one pending migration that applies: the run returns [nil] and the
    calls are the listing and the application of that migration. *)
Lemma ApplyMigrations_applies_in_order_witness :
  let w := {| pending := [migration_of "001" "create table a"]; applied := [] |} in
  calls (run handle ApplyMigrations w) =
    [migrator_GetPendingMigrations;
     migrator_ApplyMigration (migration_of "001" "create table a")] /\
  applied (world (run handle ApplyMigrations w)) = ["001"].
Proof.
  intros w.
  destruct (ApplyMigrations_applies_in_order _ handle w) as (done & _ & Hcalls & Hall).
  rewrite Hcalls, Hall; [split; reflexivity | reflexivity].
Defined.

(** X16.  [ApplyMigrations] stops at the first migration that fails: when
    the migrations before it have been applied and it returns an error,
    that error is returned and no later migration is applied. *)
Theorem ApplyMigrations_stops_at_first_failure :
  forall (W : Type) (handle : forall c : Call, W -> Resp c * W) (w w0 : W)
         (before after : list Migration) (migration : Migration) (e : error),
    handle migrator_GetPendingMigrations w = (Ok (before ++ migration :: after), w0) ->
    let reached := run handle (rangeMigrations before) w0 in
    returned reached = None ->
    (handle (migrator_ApplyMigration migration) (world reached)).1 = Some e ->
    let o := run handle ApplyMigrations w in
    returned o = Some e /\
    calls o = migrator_GetPendingMigrations ::
              (migrator_ApplyMigration <$> (before ++ [migration])) /\
    world o = (handle (migrator_ApplyMigration migration) (world reached)).2.
Proof.
  intros W handle w w0 before after migration e Hget reached Hbefore Hfail o.
  subst o. unfold ApplyMigrations. simpl. rewrite Hget. cbn [fst snd].
  rewrite (run_rangeMigrations_app handle before (migration :: after) w0 Hbefore).
  cbv zeta. fold reached. rewrite run_rangeMigrations_cons. cbv zeta. rewrite Hfail.
  cbn [returned world calls].
  pose proof (rangeMigrations_all_applied handle before w0 Hbefore) as Hall.
  fold reached in Hall. rewrite Hall.
  rewrite fmap_app. repeat split.
Qed.

(** With three pending migrations of which the second is empty: the first
    is applied, the second fails, the third is not tried. *)
Lemma ApplyMigrations_stops_at_first_failure_witness :
  let o := run handle ApplyMigrations three_pending in
  returned o = Some "empty migration" /\
  calls o = [migrator_GetPendingMigrations;
             migrator_ApplyMigration (migration_of "001" "create table a");
             migrator_ApplyMigration (migration_of "002" "")] /\
  applied (world o) = ["001"].
Proof.
  intros o.
  destruct (ApplyMigrations_stops_at_first_failure _ handle three_pending three_pending
              [migration_of "001" "create table a"] [migration_of "003" "create table c"]
              (migration_of "002" "") "empty migration")
    as (Hret & Hcalls & Hworld).
  - reflexivity.
  - reflexivity.
  - reflexivity.
  - split; [exact Hret |]. split; [exact Hcalls |].
    fold o in Hworld. rewrite Hworld. reflexivity.
Defined.

End database_facts.

Module config_facts.
Import program config.

Section Updates.
Context (Format : time.Time -> string -> string).
Context {W : Type} (handle : forall c : Call, W -> Resp c * W).

(** The configuration that [UpdateWAFRules] builds in world [w] for the
    marshalled rules [data]: three readings of the clock, the first for the
    version. *)
Lemma run_UpdateWAFRules_emergency (rules : list WAFRule) (w : W) :
  run handle (UpdateWAFRules Format rules true) w =
  let marshalled := handle (json_Marshal_rules rules) w in
  match marshalled.1 with
  | Err e =>
      {| returned := Some e; world := marshalled.2; calls := [json_Marshal_rules rules] |}
  | Ok data =>
      let versioned := handle time_Now marshalled.2 in
      let created := handle time_Now versioned.2 in
      let lastUpdated := handle time_Now created.2 in
      let config :=
        {| Type' := ConfigurationTypeWAF;
           Version := Format versioned.1 "20060102150405";
           Data := data;
           Created := created.1;
           LastUpdated := lastUpdated.1;
           Active := true |} in
      let saved := handle (storage_Store config) lastUpdated.2 in
      match saved.1 with
      | Some e =>
          {| returned := Some e; world := saved.2;
             calls := [json_Marshal_rules rules; time_Now; time_Now; time_Now;
                       storage_Store config] |}
      | None =>
          let pushed := handle (distributor_DeployWAFRules rules []) saved.2 in
          {| returned := pushed.1; world := pushed.2;
             calls := [json_Marshal_rules rules; time_Now; time_Now; time_Now;
                       storage_Store config; distributor_DeployWAFRules rules []] |}
      end
  end.
Proof.
  unfold UpdateWAFRules. simpl.
  destruct (handle (json_Marshal_rules rules) w) as [[data | e] w1]; simpl;
    [| reflexivity].
  match goal with
  | |- context [handle (storage_Store ?cfg) ?w'] =>
      destruct (handle (storage_Store cfg) w') as [[e |] w2]
  end; reflexivity.
Qed.

Lemma run_UpdateWAFRules_checked (rules : list WAFRule) (w : W) :
  run handle (UpdateWAFRules Format rules false) w =
  let checked := handle (validator_ValidateWAFRules rules) w in
  match checked.1 with
  | [] =>
      let o := run handle (UpdateWAFRules Format rules true) checked.2 in
      {| returned := returned o; world := world o;
         calls := validator_ValidateWAFRules rules :: calls o |}
  | _ :: _ =>
      {| returned := None; world := checked.2;
         calls := [validator_ValidateWAFRules rules] |}
  end.
Proof.
  unfold UpdateWAFRules. simpl.
  destruct (handle (validator_ValidateWAFRules rules) w) as [[| err errors] w1];
    reflexivity.
Qed.

End Updates.

(** X11.  [UpdateWAFRules] without emergency deployment validates first.
    If the validator reports any error, the update stops there: the one
    call made is the validation, nothing is stored or deployed, and the
    value returned is that of [NewValidationError], which is [nil]. *)
Theorem UpdateWAFRules_rejected_rules_change_nothing :
  forall (Format : time.Time -> string -> string) (W : Type)
         (handle : forall c : Call, W -> Resp c * W) (rules : list WAFRule) (w : W),
    (handle (validator_ValidateWAFRules rules) w).1 <> [] ->
    run handle (UpdateWAFRules Format rules false) w =
    {| returned := None;
       world := (handle (validator_ValidateWAFRules rules) w).2;
       calls := [validator_ValidateWAFRules rules] |}.
Proof.
  intros Format W handle rules w Herrors.
  rewrite run_UpdateWAFRules_checked. cbv zeta.
  destruct (handle (validator_ValidateWAFRules rules) w) as [[| err errors] w1];
    [contradiction | reflexivity].
Qed.

Lemma UpdateWAFRules_rejected_rules_change_nothing_witness :
  run handle (UpdateWAFRules sample_format [good_rule; bad_rule] false) empty_world =
  {| returned := None; world := empty_world;
     calls := [validator_ValidateWAFRules [good_rule; bad_rule]] |}.
Proof.
  apply (UpdateWAFRules_rejected_rules_change_nothing sample_format _ handle
           [good_rule; bad_rule] empty_world).
  vm_compute. discriminate.
Defined.

(** X12.  Emergency deployment skips validation and nothing else: with the
    flag set the validator is never called, and an update without the flag
    whose validation reports no error goes on exactly as the emergency
    update does from the world the validator leaves. *)
Theorem UpdateWAFRules_emergency_skips_validation :
  forall (Format : time.Time -> string -> string) (W : Type)
         (handle : forall c : Call, W -> Resp c * W) (rules : list WAFRule) (w : W),
    filter (fun c => is_validation c = true)
           (calls (run handle (UpdateWAFRules Format rules true) w)) = [] /\
    ((handle (validator_ValidateWAFRules rules) w).1 = [] ->
     let o := run handle (UpdateWAFRules Format rules true)
                  (handle (validator_ValidateWAFRules rules) w).2 in
     run handle (UpdateWAFRules Format rules false) w =
     {| returned := returned o; world := world o;
        calls := validator_ValidateWAFRules rules :: calls o |}).
Proof.
  intros Format W handle rules w. split.
  - rewrite run_UpdateWAFRules_emergency. cbv zeta.
    destruct (handle (json_Marshal_rules rules) w).1; [| reflexivity].
    match goal with
    | |- context [handle (storage_Store ?cfg) ?w'] =>
        destruct (handle (storage_Store cfg) w').1
    end; reflexivity.
  - intros Hvalid. rewrite run_UpdateWAFRules_checked. cbv zeta.
    rewrite Hvalid. reflexivity.
Qed.

(** In memory: a rule the validator would reject is stored and deployed
    under emergency deployment; valid rules take the same path after their
    validation. *)
Lemma UpdateWAFRules_emergency_skips_validation_witness :
  deployed (world (run handle (UpdateWAFRules sample_format [bad_rule] true) empty_world)) =
    [[bad_rule]] /\
  calls (run handle (UpdateWAFRules sample_format [good_rule] false) empty_world) =
    validator_ValidateWAFRules [good_rule] ::
    calls (run handle (UpdateWAFRules sample_format [good_rule] true) empty_world).
Proof.
  split; [vm_compute; reflexivity |].
  destruct (UpdateWAFRules_emergency_skips_validation sample_format _ handle
              [good_rule] empty_world) as [_ Hsame].
  rewrite Hsame; [reflexivity | vm_compute; reflexivity].
Defined.

(** X13.  [UpdateWAFRules] stores before it deploys and stops at the first
    error, with or without emergency deployment.  Without the flag the
    validation comes first and, if it reports an error, is the only call.
    Otherwise a failure to marshal the rules ends the update before the
    clock is read; the configuration stored is of type waf, active, holds
    the marshalled rules and has the first clock reading formatted as its
    version; a failure to store ends the update with nothing deployed; only
    after a successful store are the rules given deployed, to an empty list
    of instances, and the result of that call returned. *)
Theorem UpdateWAFRules_stores_then_deploys :
  forall (Format : time.Time -> string -> string) (W : Type)
         (handle : forall c : Call, W -> Resp c * W) (rules : list WAFRule)
         (emergencyDeployment : bool) (w : W),
    let o := run handle (UpdateWAFRules Format rules emergencyDeployment) w in
    let checked := handle (validator_ValidateWAFRules rules) w in
    let validation : list Call :=
      if emergencyDeployment then [] else [validator_ValidateWAFRules rules] in
    let rejected :=
      match emergencyDeployment, checked.1 with
      | false, _ :: _ => true
      | _, _ => false
      end in
    if rejected then returned o = None /\ calls o = validation
    else
      let marshalled :=
        handle (json_Marshal_rules rules) (if emergencyDeployment then w else checked.2) in
      match marshalled.1 with
      | Err e =>
          returned o = Some e /\ calls o = validation ++ [json_Marshal_rules rules]
      | Ok data =>
          let versioned := handle time_Now marshalled.2 in
          let created := handle time_Now versioned.2 in
          let lastUpdated := handle time_Now created.2 in
          exists config : Configuration,
            Type' config = ConfigurationTypeWAF /\
            Active config = true /\
            Data config = data /\
            Version config = Format versioned.1 "20060102150405" /\
            let saved := handle (storage_Store config) lastUpdated.2 in
            match saved.1 with
            | Some e =>
                returned o = Some e /\
                calls o = validation ++
                          [json_Marshal_rules rules; time_Now; time_Now; time_Now;
                           storage_Store config]
            | None =>
                returned o = (handle (distributor_DeployWAFRules rules []) saved.2).1 /\
                calls o = validation ++
                          [json_Marshal_rules rules; time_Now; time_Now; time_Now;
                           storage_Store config; distributor_DeployWAFRules rules []]
            end
      end.
Proof.
  intros Format W handle rules emergencyDeployment w o checked validation rejected.
  assert (Hemergency : forall w0 : W,
    let o' := run handle (UpdateWAFRules Format rules true) w0 in
    let marshalled := handle (json_Marshal_rules rules) w0 in
    match marshalled.1 with
    | Err e => returned o' = Some e /\ calls o' = [json_Marshal_rules rules]
    | Ok data =>
        let versioned := handle time_Now marshalled.2 in
        let created := handle time_Now versioned.2 in
        let lastUpdated := handle time_Now created.2 in
        exists config : Configuration,
          Type' config = ConfigurationTypeWAF /\
          Active config = true /\
          Data config = data /\
          Version config = Format versioned.1 "20060102150405" /\
          let saved := handle (storage_Store config) lastUpdated.2 in
          match saved.1 with
          | Some e =>
              returned o' = Some e /\
              calls o' = [json_Marshal_rules rules; time_Now; time_Now; time_Now;
                          storage_Store config]
          | None =>
              returned o' = (handle (distributor_DeployWAFRules rules []) saved.2).1 /\
              calls o' = [json_Marshal_rules rules; time_Now; time_Now; time_Now;
                          storage_Store config; distributor_DeployWAFRules rules []]
          end
    end).
  { intros w0 o' marshalled. subst o' marshalled.
    rewrite run_UpdateWAFRules_emergency. cbv zeta.
    destruct (handle (json_Marshal_rules rules) w0) as [[data | e] w1]; cbn [fst snd];
      [| split; reflexivity].
    exists {| Type' := ConfigurationTypeWAF;
              Version := Format (handle time_Now w1).1 "20060102150405";
              Data := data;
              Created := (handle time_Now (handle time_Now w1).2).1;
              LastUpdated :=
                (handle time_Now (handle time_Now (handle time_Now w1).2).2).1;
              Active := true |}.
    split; [reflexivity |]. split; [reflexivity |].
    split; [reflexivity |]. split; [reflexivity |].
    cbv zeta.
    match goal with
    | |- context [handle (storage_Store ?cfg) ?w'] =>
        destruct (handle (storage_Store cfg) w') as [[e |] w2]
    end; cbn [fst snd]; split; reflexivity. }
  subst o checked validation rejected.
  destruct emergencyDeployment.
  - cbv iota beta. exact (Hemergency w).
  - rewrite run_UpdateWAFRules_checked. cbv zeta.
    destruct (handle (validator_ValidateWAFRules rules) w) as [[| err errors] w1];
      cbn [fst snd returned calls].
    + specialize (Hemergency w1). cbv zeta in Hemergency.
      destruct (handle (json_Marshal_rules rules) w1) as [[data | e] w2];
        cbn [fst snd] in *.
      * destruct Hemergency as (config & H1 & H2 & H3 & H4 & Hsaved).
        exists config. split; [exact H1 |]. split; [exact H2 |].
        split; [exact H3 |]. split; [exact H4 |]. cbv zeta in *.
        destruct (handle (storage_Store config) _) as [[e |] w3]; cbn [fst snd] in *;
          destruct Hsaved as [Hret Hcalls]; rewrite Hret, Hcalls; split; reflexivity.
      * destruct Hemergency as [Hret Hcalls]. rewrite Hret, Hcalls. split; reflexivity.
    + split; reflexivity.
Qed.

(** In memory, without the flag: valid rules are validated, stored and
    deployed, in this order; a rule set with an invalid rule stops at the
    validation. *)
Lemma UpdateWAFRules_stores_then_deploys_witness :
  (exists config : Configuration,
      calls (run handle (UpdateWAFRules sample_format [good_rule] false) empty_world) =
        [validator_ValidateWAFRules [good_rule]; json_Marshal_rules [good_rule];
         time_Now; time_Now; time_Now; storage_Store config;
         distributor_DeployWAFRules [good_rule] []] /\
      Type' config = ConfigurationTypeWAF) /\
  calls (run handle (UpdateWAFRules sample_format [bad_rule] false) empty_world) =
    [validator_ValidateWAFRules [bad_rule]].
Proof.
  split.
  - pose proof (UpdateWAFRules_stores_then_deploys sample_format _ handle
                  [good_rule] false empty_world) as H.
    vm_compute in H. destruct H as (config & Htype & _ & _ & _ & Hsaved).
    vm_compute in Hsaved. destruct Hsaved as [_ Hcalls].
    exists config. split; [| exact Htype].
    vm_compute. exact Hcalls.
  - pose proof (UpdateWAFRules_stores_then_deploys sample_format _ handle
                  [bad_rule] false empty_world) as H.
    vm_compute in H. destruct H as [_ Hcalls]. vm_compute. exact Hcalls.
Defined.

(** X14.  [UpdateRoutingConfig] has no way around validation: its first
    call is always the validation of the configuration given, and if the
    validator reports any error that is its only call; nothing is stored
    or deployed and the value returned is [nil]. *)
Theorem UpdateRoutingConfig_always_validates :
  forall (Format : time.Time -> string -> string) (W : Type)
         (handle : forall c : Call, W -> Resp c * W) (routingConfig : RoutingConfig)
         (w : W),
    let o := run handle (UpdateRoutingConfig Format routingConfig) w in
    exists rest : list Call,
      calls o = validator_ValidateRoutingConfig routingConfig :: rest /\
      ((handle (validator_ValidateRoutingConfig routingConfig) w).1 <> [] ->
       rest = [] /\ returned o = None).
Proof.
  intros Format W handle routingConfig w o. subst o.
  unfold UpdateRoutingConfig. simpl.
  destruct (handle (validator_ValidateRoutingConfig routingConfig) w)
    as [[| err errors] w1]; simpl.
  - eexists. split; [reflexivity |]. intros H. contradiction.
  - exists []. split; [reflexivity |]. intros _. split; reflexivity.
Qed.

Lemma UpdateRoutingConfig_always_validates_witness :
  let routingConfig := {| Routes := []; DefaultBackend := ""; Middleware := [] |} in
  let o := run handle (UpdateRoutingConfig sample_format routingConfig) empty_world in
  calls o = [validator_ValidateRoutingConfig routingConfig] /\ returned o = None.
Proof.
  intros routingConfig o.
  destruct (UpdateRoutingConfig_always_validates sample_format _ handle
              routingConfig empty_world) as (rest & Hcalls & Hrejected).
  destruct Hrejected as [Hrest Hret]; [vm_compute; discriminate |].
  rewrite Hrest in Hcalls. split; [exact Hcalls | exact Hret].
Defined.

End config_facts.

Module main_facts.
Import main.

(** X17.  [getEnv] returns the value of the variable when it is set and
    not empty, and the default otherwise: a variable set to the empty
    string counts as not set.  With a non-empty default the result is
    never empty. *)
Theorem getEnv_default_when_unset_or_empty :
  forall (environ : gmap string string) (key defaultValue : string),
    (forall value : string,
        environ !! key = Some value -> value <> "" ->
        getEnv environ key defaultValue = value) /\
    (environ !! key = None \/ environ !! key = Some "" ->
     getEnv environ key defaultValue = defaultValue) /\
    (defaultValue <> "" -> getEnv environ key defaultValue <> "") /\
    getEnv (<[key := ""]> environ) key defaultValue =
      getEnv (delete key environ) key defaultValue.
Proof.
  intros environ key defaultValue. unfold getEnv, Getenv.
  split; [| split; [| split]].
  - intros value Hset Hvalue. rewrite Hset. simpl.
    rewrite decide_True by exact Hvalue. reflexivity.
  - intros [Hunset | Hempty].
    + rewrite Hunset. reflexivity.
    + rewrite Hempty. reflexivity.
  - intros Hdefault. destruct (environ !! key) as [value |]; simpl.
    + case_decide; assumption.
    + exact Hdefault.
  - rewrite lookup_insert_eq, lookup_delete_eq. reflexivity.
Qed.

(** With GRPC_PORT set to 9090 and HTTP_PORT set but empty, the ports are
    9090 and the default 8081. *)
Lemma getEnv_default_when_unset_or_empty_witness :
  let environ : gmap string string := {[ "GRPC_PORT" := "9090"; "HTTP_PORT" := "" ]} in
  getEnv environ "GRPC_PORT" defaultGRPCPort = "9090" /\
  getEnv environ "HTTP_PORT" defaultHTTPPort = "8081" /\
  getEnv environ "LOG_LEVEL" "info" <> "".
Proof.
  intros environ. split; [| split].
  - destruct (getEnv_default_when_unset_or_empty environ "GRPC_PORT" defaultGRPCPort)
      as (Hset & _ & _ & _).
    apply Hset; [vm_compute; reflexivity | discriminate].
  - destruct (getEnv_default_when_unset_or_empty environ "HTTP_PORT" defaultHTTPPort)
      as (_ & Hunset & _ & _).
    apply Hunset. right. vm_compute. reflexivity.
  - destruct (getEnv_default_when_unset_or_empty environ "LOG_LEVEL" "info")
      as (_ & _ & Hnonempty & _).
    apply Hnonempty. discriminate.
Defined.

End main_facts.
